(** * movie-agent: the fuzzy title matcher of [tools_kaggle.py]

    A shallow embedding of the matching core of [src/tools_kaggle.py]
    (normalisation, Levenshtein distance, the hybrid score, the lazily
    loaded title cache, the best-title scan and the query tools), of the
    conversation memory of [src/memory.py] and of the message building
    and answer formatting of [src/agent.py], together with the
    properties stated about them.

    Modelling conventions.
    - A Python [str] is a list of code points; code points are taken in
      the Latin-1 range, so a character is an [ascii] (8 bits).  On that
      range [str.lower] is character-wise and length preserving.
    - The dialogue texts of the memory and the agent are lists of
      arbitrary code points ([text]); there [str.lower] is a parameter.
    - Python [int] values that count things ([len], distances, hit
      counts) are [nat]; SQL integers are [Z].
    - Python [float] scores are computed in exact rational arithmetic
      ([Q]); the constants 0.1, 0.05, 0.6 and 1.5 are the rationals
      1/10, 1/20, 3/5 and 3/2.
    - The module globals [_MOVIES_CACHE] and [_MOVIES_CACHE_LOADED] are an
      explicit [State] record threaded through the calls; a raised
      exception is the [Raise] outcome. *)

From Stdlib Require Import String Ascii Bool Arith ZArith QArith Qminmax Lia List
  Sorted.
Import ListNotations.

#[local] Open Scope nat_scope.
#[local] Open Scope list_scope.

(* ================================================================== *)
(** * Strings *)
(* ================================================================== *)

Definition str := list ascii.

(** Literal helper: [s2l "abc"] is the Python string ['abc']. *)
Definition s2l (s : string) : str := list_ascii_of_string s.

Fixpoint str_eqb (a b : str) : bool :=
  match a, b with
  | [], [] => true
  | x :: a', y :: b' => Ascii.eqb x y && str_eqb a' b'
  | _, _ => false
  end.

(** Python truthiness of a string: [not s] holds exactly for ['']. *)
Definition str_empty (s : str) : bool :=
  match s with [] => true | _ :: _ => false end.

(** [str.isspace] for one code point of the Latin-1 range. *)
Definition is_space (c : ascii) : bool :=
  let n := nat_of_ascii c in
  ((9 <=? n) && (n <=? 13)) || ((28 <=? n) && (n <=? 32))
  || (n =? 133) || (n =? 160).

(** [str.lower] for one code point of the Latin-1 range. *)
Definition lower_char (c : ascii) : ascii :=
  let n := nat_of_ascii c in
  if ((65 <=? n) && (n <=? 90))
     || ((192 <=? n) && (n <=? 222) && negb (n =? 215))
  then ascii_of_nat (n + 32) else c.

Definition lower (s : str) : str := map lower_char s.

Fixpoint lstrip (s : str) : str :=
  match s with
  | c :: s' => if is_space c then lstrip s' else s
  | [] => []
  end.

Definition rstrip (s : str) : str := rev (lstrip (rev s)).

Definition strip (s : str) : str := rstrip (lstrip s).

(** [_normalize(text)]: [(text or "").strip().lower()]; [None] is the
    absent text. *)
Definition _normalize_opt (text : option str) : str :=
  lower (strip (match text with Some s => s | None => [] end)).

Definition _normalize (text : str) : str := _normalize_opt (Some text).

(** [s.split()]: maximal runs of non-whitespace characters, in order. *)
Fixpoint split_ws_aux (s : str) (cur : str) : list str :=
  match s with
  | [] => match cur with [] => [] | _ => [rev cur] end
  | c :: s' =>
      if is_space c
      then match cur with
           | [] => split_ws_aux s' []
           | _ => rev cur :: split_ws_aux s' []
           end
      else split_ws_aux s' (c :: cur)
  end.

Definition split_ws (s : str) : list str := split_ws_aux s [].

Fixpoint is_prefix (p s : str) : bool :=
  match p, s with
  | [], _ => true
  | x :: p', y :: s' => Ascii.eqb x y && is_prefix p' s'
  | _ :: _, [] => false
  end.

(** [tok in s] for strings: substring test. *)
Fixpoint is_substring (p s : str) : bool :=
  is_prefix p s
  || match s with [] => false | _ :: s' => is_substring p s' end.

Definition str_eq_dec : forall a b : str, {a = b} + {a <> b} :=
  list_eq_dec ascii_dec.

(* ================================================================== *)
(** * Levenshtein distance *)
(* ================================================================== *)

(** [enumerate(xs, start=k)]. *)
Fixpoint enumerate {A : Type} (k : nat) (xs : list A) : list (nat * A) :=
  match xs with
  | [] => []
  | x :: xs' => (k, x) :: enumerate (S k) xs'
  end.

Definition min3 (x y z : nat) : nat := Nat.min x (Nat.min y z).

Definition subst_cost (ca cb : ascii) : nat :=
  if Ascii.eqb ca cb then 0 else 1.

(** Body of the inner loop: one cell appended to [cur_row]. *)
Definition inner_step (ca : ascii) (prev_row cur_row : list nat)
    (jcb : nat * ascii) : list nat :=
  let (j, cb) := jcb in
  let insert_cost := nth (j - 1) cur_row 0 + 1 in
  let delete_cost := nth j prev_row 0 + 1 in
  let replace_cost := nth (j - 1) prev_row 0 + subst_cost ca cb in
  cur_row ++ [min3 insert_cost delete_cost replace_cost].

(** Body of the outer loop: the new [prev_row]. *)
Definition outer_step (b : str) (prev_row : list nat)
    (ica : nat * ascii) : list nat :=
  let (i, ca) := ica in
  fold_left (inner_step ca prev_row) (enumerate 1 b) [i].

Definition lev_rows (a b : str) : list nat :=
  fold_left (outer_step b) (enumerate 1 a) (seq 0 (length b + 1)).

Definition _levenshtein (a b : str) : nat :=
  if str_eqb a b then 0
  else if str_empty a then length b
  else if str_empty b then length a
  else last (lev_rows a b) 0.

(** The textbook distance matrix: [lev_matrix a b i j] is the distance
    between the first [i] characters of [a] and the first [j] characters
    of [b], by the insert / delete / substitute recurrence with unit
    costs. *)
Fixpoint lev_matrix (a b : str) (i : nat) : nat -> nat :=
  match i with
  | 0 => fun j => j
  | S i' =>
      fix row (j : nat) : nat :=
        match j with
        | 0 => S i'
        | S j' =>
            min3 (row j' + 1)
                 (lev_matrix a b i' (S j') + 1)
                 (lev_matrix a b i' j'
                  + subst_cost (nth i' a zero) (nth j' b zero))
        end
  end.

Definition levenshtein_spec (a b : str) : nat :=
  lev_matrix a b (length a) (length b).


(** Row [i] of the matrix, restricted to its first [n] columns. *)
Definition matrix_row (a b : str) (i n : nat) : list nat :=
  map (lev_matrix a b i) (seq 0 n).

(* ================================================================== *)
(** * The hybrid score *)
(* ================================================================== *)

(** One element of [_MOVIES_CACHE]: the dict with keys ["title"],
    ["title_norm"] and ["meta"]. *)
Record Entry := mkEntry {
  title : str;
  title_norm : str;
  meta : str
}.

(** A Python [int] used in float arithmetic. *)
Definition Qnat (n : nat) : Q := inject_Z (Z.of_nat n).

(** [x < y] on scores, as a test. *)
Definition Qltb (x y : Q) : bool := negb (Qle_bool y x).

(** A Python [set] of strings is a duplicate-free list; only membership
    and cardinality are observed. *)
Definition str_set (l : list str) : list str := nodup str_eq_dec l.

Definition str_mem (x : str) (l : list str) : bool :=
  existsb (str_eqb x) l.

(** [{tok for tok in s.split() if tok}]. *)
Definition tokens (s : str) : list str :=
  str_set (filter (fun tok => negb (str_empty tok)) (split_ws s)).

(** [len(tokens_q & tokens_t)]. *)
Definition overlap (tokens_q tokens_t : list str) : nat :=
  length (filter (fun tok => str_mem tok tokens_t) tokens_q).

(** [sum(1 for tok in tokens_q if tok and tok in meta)]. *)
Definition meta_hits (tokens_q : list str) (m : str) : nat :=
  length (filter (fun tok => negb (str_empty tok) && is_substring tok m)
                 tokens_q).

(** [base + token_bonus + meta_bonus], the score before it is clamped. *)
Definition raw_score (q : str) (item : Entry) : Q :=
  let t := title_norm item in
  let max_len := Nat.max (length q) (length t) in
  let dist := _levenshtein q t in
  let base := (1 - Qnat dist / Qnat max_len)%Q in
  let tokens_q := tokens q in
  let tokens_t := tokens t in
  let token_bonus := (0.1 * Qnat (overlap tokens_q tokens_t))%Q in
  let meta_bonus := (0.05 * Qnat (meta_hits tokens_q (meta item)))%Q in
  (base + token_bonus + meta_bonus)%Q.

Definition _fuzzy_score (query_norm : str) (item : Entry) : Q :=
  let q := query_norm in
  let t := title_norm item in
  if str_empty q || str_empty t then 0%Q
  else
    let score := raw_score q item in
    let score := if Qltb score 0 then 0%Q else score in
    let score := if Qltb 1.5 score then 1.5%Q else score in
    score.





(* ================================================================== *)
(** * The catalog store and the lazily loaded cache *)
(* ================================================================== *)

(** One row of the [movies] table.  Text columns may be NULL; the
    rating column is a number. *)
Record Movie := mkMovie {
  Series_Title : option str;
  Released_Year : option str;
  Genre : option str;
  IMDB_Rating : Q;
  Director : option str;
  Star1 : option str;
  Star2 : option str;
  Star3 : option str;
  Star4 : option str;
  Overview : option str
}.

(** What [os.path.exists] and SQLite find at [DATASET_DB_PATH]: no file,
    a file on which the query raises (table absent, file unreadable),
    or the rows of the table in retrieval order. *)
Inductive Store :=
| FileAbsent
| QueryFails
| Table (rows : list Movie).

Inductive Exn :=
| OperationalError
| ValueError
| TypeError
| OverflowError.

(** How a call ends: it returns a value or an exception leaves it. *)
Inductive Outcome (A : Type) :=
| Return (a : A)
| Raise (e : Exn).
Arguments Return {A} a.
Arguments Raise {A} e.

(** [_get_connection()]: [None] when the file does not exist. *)
Definition _get_connection (st : Store) : option Store :=
  match st with
  | FileAbsent => None
  | _ => Some st
  end.

(** [conn.execute(...).fetchall()] for a query over all rows. *)
Definition fetch_table (conn : Store) : Outcome (list Movie) :=
  match conn with
  | Table rows => Return rows
  | _ => Raise OperationalError
  end.

(** SQL [COALESCE(x, '')]. *)
Definition coalesce (x : option str) : str :=
  match x with Some s => s | None => [] end.

(** [sep.join(parts)]. *)
Fixpoint join (sep : str) (parts : list str) : str :=
  match parts with
  | [] => []
  | [p] => p
  | p :: ps => p ++ sep ++ join sep ps
  end.

(** The row tuple of the cache query and the dict built from it. *)
Definition cache_entry (m : Movie) : Entry :=
  let row0 := Series_Title m in
  let row1 := coalesce (Overview m) in
  let row2 := [coalesce (Genre m); coalesce (Director m);
               coalesce (Star1 m); coalesce (Star2 m);
               coalesce (Star3 m); coalesce (Star4 m)] in
  let title := coalesce row0 in
  let overview := row1 in
  let meta_parts := filter (fun x => negb (str_empty x)) row2 in
  let meta_text := join (s2l " ") meta_parts in
  let combined_meta := lower (overview ++ s2l " " ++ meta_text) in
  mkEntry title (_normalize title) combined_meta.

(** The module globals. *)
Record State := mkState {
  _MOVIES_CACHE : list Entry;
  _MOVIES_CACHE_LOADED : bool
}.

(** The state at import time. *)
Definition initial_state : State := mkState [] false.

Definition _load_movies_cache (st : Store) (s : State)
  : State * Outcome unit :=
  if _MOVIES_CACHE_LOADED s then (s, Return tt)
  else
    match _get_connection st with
    | None => (mkState [] true, Return tt)
    | Some conn =>
        match fetch_table conn with
        | Raise e => (s, Raise e)
        | Return rows =>
            let cache := map cache_entry rows in
            (mkState cache true, Return tt)
        end
    end.

(* ================================================================== *)
(** * The best-title scan *)
(* ================================================================== *)

(** Body of the scan loop over [(best_title, best_score)]. *)
Definition scan_step (q_norm : str) (best : option str * Q)
    (item : Entry) : option str * Q :=
  let (best_title, best_score) := best in
  let score := _fuzzy_score q_norm item in
  if Qltb best_score score then (Some (title item), score)
  else (best_title, best_score).

Definition scan (q_norm : str) (cache : list Entry) : option str * Q :=
  fold_left (scan_step q_norm) cache (None, 0%Q).

Definition _fuzzy_find_best_title (st : Store) (query : str) (s : State)
  : State * Outcome (option str) :=
  match _load_movies_cache st s with
  | (s1, Raise e) => (s1, Raise e)
  | (s1, Return _) =>
      match _MOVIES_CACHE s1 with
      | [] => (s1, Return None)
      | _ :: _ =>
          let q_norm := _normalize query in
          if str_empty q_norm then (s1, Return None)
          else
            let (best_title, best_score) := scan q_norm (_MOVIES_CACHE s1) in
            if Qltb best_score 0.6 then (s1, Return None)
            else (s1, Return best_title)
      end
  end.

(** [e] is the first entry of [c] whose score is maximal: the entries
    before it score strictly less and the entries after it score no
    more. *)
Definition first_maximum (score : Entry -> Q) (c : list Entry) (e : Entry)
  : Prop :=
  exists pre post,
    c = pre ++ e :: post
    /\ Forall (fun x => (score x < score e)%Q) pre
    /\ Forall (fun x => (score x <= score e)%Q) post.

(** What the scan is to deliver for the normalised query [q_norm] over
    the cache [c]: the title of the first maximum when that maximum is at
    least 0.6, and nothing when every score is below 0.6. *)
Definition best_title_spec (q_norm : str) (c : list Entry)
    (r : option str) : Prop :=
  (forall t, r = Some t <->
     exists e, t = title e
               /\ (0.6 <= _fuzzy_score q_norm e)%Q
               /\ first_maximum (_fuzzy_score q_norm) c e)
  /\ (r = None <-> Forall (fun x => (_fuzzy_score q_norm x < 0.6)%Q) c).

(** Loop invariant of the scan after the entries [done]. *)
Definition scan_inv (q_norm : str) (done : list Entry)
    (best : option str * Q) : Prop :=
  match fst best with
  | None =>
      snd best = 0%Q
      /\ Forall (fun x => (_fuzzy_score q_norm x <= 0)%Q) done
  | Some t =>
      exists e, t = title e /\ snd best = _fuzzy_score q_norm e
                /\ (0 < _fuzzy_score q_norm e)%Q
                /\ first_maximum (_fuzzy_score q_norm) done e
  end.

(** The value the scan and the threshold test deliver. *)
Definition scan_result (q_norm : str) (c : list Entry) : option str :=
  let (best_title, best_score) := scan q_norm c in
  if Qltb best_score 0.6 then None else best_title.

(* ================================================================== *)
(** * The query tools that take a limit *)
(* ================================================================== *)

(** The values of [limit] considered: an integer, a string, [None]. *)
Inductive PyVal :=
| PyInt (z : Z)
| PyStr (s : str)
| PyNone.

Definition is_digit (c : ascii) : bool :=
  let n := nat_of_ascii c in (48 <=? n) && (n <=? 57).

Definition digit_val (c : ascii) : Z := Z.of_nat (nat_of_ascii c - 48).

(** Decimal digits with single underscores between digits. *)
Fixpoint parse_digits (s : str) (acc : Z) (after_digit : bool) : option Z :=
  match s with
  | [] => if after_digit then Some acc else None
  | c :: s' =>
      if is_digit c then parse_digits s' (10 * acc + digit_val c)%Z true
      else if Ascii.eqb c "_"%char && after_digit
           then parse_digits s' acc false
           else None
  end.

(** [int(s)] for a string: surrounding whitespace, an optional sign,
    then the digits. *)
Definition parse_int (s : str) : option Z :=
  match strip s with
  | c :: ds =>
      if Ascii.eqb c "-"%char then option_map Z.opp (parse_digits ds 0%Z false)
      else if Ascii.eqb c "+"%char then parse_digits ds 0%Z false
      else parse_digits (c :: ds) 0%Z false
  | [] => None
  end.

(** [int(limit)]. *)
Definition py_int (v : PyVal) : Outcome Z :=
  match v with
  | PyInt z => Return z
  | PyStr s =>
      match parse_int s with
      | Some z => Return z
      | None => Raise ValueError
      end
  | PyNone => Raise TypeError
  end.

(** SQLite's [lower()] and the case folding of [LIKE]: ASCII letters
    only. *)
Definition sql_lower_char (c : ascii) : ascii :=
  let n := nat_of_ascii c in
  if (65 <=? n) && (n <=? 90) then ascii_of_nat (n + 32) else c.

Definition sql_lower (s : str) : str := map sql_lower_char s.

(** SQLite's [s LIKE p]: [%] matches any run of characters, [_] any one
    character, other characters match up to ASCII case. *)
Fixpoint like (p : str) : str -> bool :=
  match p with
  | [] => fun s => str_empty s
  | c :: p' =>
      if Ascii.eqb c "%"%char then
        fix any (s : str) : bool :=
          like p' s || match s with [] => false | _ :: s' => any s' end
      else if Ascii.eqb c "_"%char then
        fun s => match s with [] => false | _ :: s' => like p' s' end
      else
        fun s =>
          match s with
          | [] => false
          | d :: s' =>
              Ascii.eqb (sql_lower_char c) (sql_lower_char d) && like p' s'
          end
  end.

(** The bound parameter [f"%{norm}%"]. *)
Definition contains_pattern (norm : str) : str :=
  s2l "%" ++ norm ++ s2l "%".

(** [ORDER BY IMDB_Rating DESC], as an insertion sort that keeps table
    order among equal ratings. *)
Fixpoint insert_by_rating (m : Movie) (l : list Movie) : list Movie :=
  match l with
  | [] => [m]
  | x :: l' =>
      if Qltb (IMDB_Rating m) (IMDB_Rating x)
      then x :: insert_by_rating m l'
      else m :: l
  end.

Definition order_by_rating_desc (l : list Movie) : list Movie :=
  fold_right insert_by_rating [] l.

(** [LIMIT n]: a negative [n] puts no bound on the number of rows. *)
Definition sql_limit (n : Z) (l : list Movie) : list Movie :=
  if (n <? 0)%Z then l else firstn (Z.to_nat n) l.

(** A Python [int] binds to an SQLite parameter only as a signed 64-bit
    integer. *)
Definition fits_int64 (n : Z) : bool :=
  ((- 2 ^ 63 <=? n) && (n <? 2 ^ 63))%Z.

(** [conn.execute(query, params).fetchall()] for the three limit-taking
    queries: [WHERE], optional [ORDER BY IMDB_Rating DESC], [LIMIT]. *)
Definition fetch_limited (conn : Store) (where_ : Movie -> bool)
    (ordered : bool) (limit : Z) : Outcome (list Movie) :=
  match fetch_table conn with
  | Raise e => Raise e
  | Return rows =>
      if fits_int64 limit then
        let matching := filter where_ rows in
        let sorted := if ordered then order_by_rating_desc matching
                      else matching in
        Return (sql_limit limit sorted)
      else Raise OverflowError
  end.

(** A result row [(Series_Title, Released_Year, IMDB_Rating)]. *)
Definition RatedRow : Type := option str * option str * Q.

Definition rated_row (m : Movie) : RatedRow :=
  (Series_Title m, Released_Year m, IMDB_Rating m).


(** The text a tool returns, by message template: the unavailable
    message, the tool's nothing-found sentence about its argument, or
    the tool's header followed by one line per row. *)
Inductive Reply :=
| Unavailable
| NothingFound (arg : str)
| RatedListing (arg : str) (rows : list RatedRow)
| TopListing (limit : PyVal) (arg : str) (rows : list RatedRow)
| ExcerptListing (arg : str) (rows : list (option str * str)).



Definition kaggle_movies_with_actor (st : Store) (actor : str)
    (limit : PyVal) : Outcome Reply :=
  match _get_connection st with
  | None => Return Unavailable
  | Some conn =>
      let norm := _normalize actor in
      let pat := contains_pattern norm in
      match py_int limit with
      | Raise e => Raise e
      | Return n =>
          match fetch_limited conn
                  (fun m => like pat (sql_lower (coalesce (Star1 m)))
                            || like pat (sql_lower (coalesce (Star2 m)))
                            || like pat (sql_lower (coalesce (Star3 m)))
                            || like pat (sql_lower (coalesce (Star4 m))))
                  true n with
          | Raise e => Raise e
          | Return [] => Return (NothingFound actor)
          | Return rows => Return (RatedListing actor (map rated_row rows))
          end
      end
  end.

Definition kaggle_top_by_genre (st : Store) (genre : str)
    (limit : PyVal) : Outcome Reply :=
  match _get_connection st with
  | None => Return Unavailable
  | Some conn =>
      let norm := _normalize genre in
      let pat := contains_pattern norm in
      match py_int limit with
      | Raise e => Raise e
      | Return n =>
          match fetch_limited conn
                  (fun m => like pat (sql_lower (coalesce (Genre m))))
                  true n with
          | Raise e => Raise e
          | Return [] => Return (NothingFound genre)
          | Return rows =>
              Return (TopListing limit genre (map rated_row rows))
          end
      end
  end.

(** [f"{title} — {overview[:150]}..."] for each row; slicing a NULL
    overview raises. *)
Fixpoint excerpt_lines (rows : list Movie)
  : Outcome (list (option str * str)) :=
  match rows with
  | [] => Return []
  | m :: rows' =>
      match Overview m with
      | None => Raise TypeError
      | Some overview =>
          match excerpt_lines rows' with
          | Raise e => Raise e
          | Return ls => Return ((Series_Title m, firstn 150 overview) :: ls)
          end
      end
  end.

Definition kaggle_search_by_keyword (st : Store) (keyword : str)
    (limit : PyVal) : Outcome Reply :=
  match _get_connection st with
  | None => Return Unavailable
  | Some conn =>
      let norm := _normalize keyword in
      let pat := contains_pattern norm in
      match py_int limit with
      | Raise e => Raise e
      | Return n =>
          match fetch_limited conn
                  (fun m => like pat (sql_lower (coalesce (Overview m))))
                  false n with
          | Raise e => Raise e
          | Return [] => Return (NothingFound keyword)
          | Return rows =>
              match excerpt_lines rows with
              | Raise e => Raise e
              | Return ls => Return (ExcerptListing keyword ls)
              end
          end
      end
  end.


(** Ratings in descending order. *)
Definition sorted_desc (l : list Q) : Prop :=
  StronglySorted (fun x y => (y <= x)%Q) l.

(* ================================================================== *)
(** * Sample catalog rows *)
(* ================================================================== *)

(** The record of the specification's scenarios. *)
Definition inception : Movie :=
  mkMovie (Some (s2l "Inception")) (Some (s2l "2010"))
          (Some (s2l "Sci-Fi")) 8.8%Q (Some (s2l "Christopher Nolan"))
          (Some (s2l "Leonardo DiCaprio")) None None None
          (Some (s2l "A thief who steals secrets via dreams...")).

(** A title and a sequel whose synopsis repeats the words of the first
    title. *)
Definition rings : Movie :=
  mkMovie (Some (s2l "The Lord of the Rings")) (Some (s2l "1978"))
          None 6.2%Q None None None None None
          (Some (s2l "A hobbit travels.")).

Definition rings2 : Movie :=
  mkMovie (Some (s2l "The Lord of the Rings 2")) (Some (s2l "1980"))
          None 6.0%Q None None None None None
          (Some (s2l "The lord of the rings returns.")).



(** Three films with Leonardo DiCaprio and one without. *)
Definition departed : Movie :=
  mkMovie (Some (s2l "The Departed")) (Some (s2l "2006"))
          (Some (s2l "Crime")) 8.5%Q (Some (s2l "Martin Scorsese"))
          (Some (s2l "Leonardo DiCaprio")) (Some (s2l "Matt Damon"))
          None None (Some (s2l "An undercover cop and a mole.")).

Definition titanic : Movie :=
  mkMovie (Some (s2l "Titanic")) (Some (s2l "1997"))
          (Some (s2l "Romance")) 7.9%Q (Some (s2l "James Cameron"))
          (Some (s2l "Leonardo DiCaprio")) (Some (s2l "Kate Winslet"))
          None None (Some (s2l "A ship sinks.")).

Definition memento : Movie :=
  mkMovie (Some (s2l "Memento")) (Some (s2l "2000"))
          (Some (s2l "Mystery")) 8.4%Q (Some (s2l "Christopher Nolan"))
          (Some (s2l "Guy Pearce")) None None None
          (Some (s2l "A man with memory loss hunts a killer.")).

Definition catalog : list Movie := [titanic; memento; inception; departed].

From Stdlib Require Import Permutation.

(* ================================================================== *)
(** * The title-resolving tools *)
(* ================================================================== *)

(** [conn.execute(... LIMIT 1 ...).fetchone()]: the first row the
    [WHERE] clause accepts, [None] when there is none. *)
Definition fetch_first (conn : Store) (where_ : Movie -> bool)
  : Outcome (option Movie) :=
  match fetch_table conn with
  | Raise e => Raise e
  | Return rows => Return (find where_ rows)
  end.

(** [lower(Series_Title) LIKE ?]; a NULL title matches nothing. *)
Definition title_like (pat : str) (m : Movie) : bool :=
  match Series_Title m with
  | Some t => like pat (sql_lower t)
  | None => false
  end.

(** [Series_Title = ?]; a NULL title equals nothing. *)
Definition title_is (t : str) (m : Movie) : bool :=
  match Series_Title m with
  | Some t' => str_eqb t' t
  | None => false
  end.

(** The loop over [(star1, star2, star3, star4)]: the stripped,
    non-blank names in column order. *)
Definition actors_list (m : Movie) : list str :=
  flat_map (fun val =>
              match val with
              | Some s => if str_empty (strip s) then [] else [strip s]
              | None => []
              end)
           [Star1 m; Star2 m; Star3 m; Star4 m].

(** The fields the description of a film is rendered from; an empty
    actor list stands for the dash. *)
Record InfoCard := mkInfoCard {
  card_title : option str;
  card_year : option str;
  card_genre : option str;
  card_rating : Q;
  card_director : option str;
  card_actors : list str;
  card_overview : option str
}.

Definition info_card (row : Movie) : InfoCard :=
  mkInfoCard (Series_Title row) (Released_Year row) (Genre row)
             (IMDB_Rating row) (Director row) (actors_list row)
             (Overview row).

(** What [kaggle_movie_info] returns, by message template. *)
Inductive InfoReply :=
| InfoUnavailable
| InfoNotFound (title : str)
| InfoFound (card : InfoCard).

Definition kaggle_movie_info (st : Store) (title : str) (s : State)
  : State * Outcome InfoReply :=
  match _get_connection st with
  | None => (s, Return InfoUnavailable)
  | Some conn =>
      let norm := _normalize title in
      match fetch_first conn (title_like (contains_pattern norm)) with
      | Raise e => (s, Raise e)
      | Return (Some row) => (s, Return (InfoFound (info_card row)))
      | Return None =>
          match _fuzzy_find_best_title st title s with
          | (s1, Raise e) => (s1, Raise e)
          | (s1, Return None) => (s1, Return (InfoNotFound title))
          | (s1, Return (Some best_title)) =>
              if str_empty best_title
              then (s1, Return (InfoNotFound title))
              else
                match _get_connection st with
                | None => (s1, Return InfoUnavailable)
                | Some conn =>
                    match fetch_first conn (title_is best_title) with
                    | Raise e => (s1, Raise e)
                    | Return None => (s1, Return (InfoNotFound title))
                    | Return (Some row) =>
                        (s1, Return (InfoFound (info_card row)))
                    end
                end
          end
      end
  end.

(** What [kaggle_movie_rating] returns, by message template. *)
Inductive RatingReply :=
| RatingUnavailable
| RatingNotFound (title : str)
| RatingFound (series_title : option str) (rating : Q).

Definition kaggle_movie_rating (st : Store) (title : str) (s : State)
  : State * Outcome RatingReply :=
  match _get_connection st with
  | None => (s, Return RatingUnavailable)
  | Some conn =>
      let norm := _normalize title in
      match fetch_first conn (title_like (contains_pattern norm)) with
      | Raise e => (s, Raise e)
      | Return (Some row) =>
          (s, Return (RatingFound (Series_Title row) (IMDB_Rating row)))
      | Return None =>
          match _fuzzy_find_best_title st title s with
          | (s1, Raise e) => (s1, Raise e)
          | (s1, Return None) => (s1, Return (RatingNotFound title))
          | (s1, Return (Some best_title)) =>
              if str_empty best_title
              then (s1, Return (RatingNotFound title))
              else
                match _get_connection st with
                | None => (s1, Return RatingUnavailable)
                | Some conn =>
                    match fetch_first conn (title_is best_title) with
                    | Raise e => (s1, Raise e)
                    | Return None => (s1, Return (RatingNotFound title))
                    | Return (Some row) =>
                        (s1, Return (RatingFound (Series_Title row)
                                                 (IMDB_Rating row)))
                    end
                end
          end
      end
  end.

(** The rating sentence that corresponds to a description. *)
Definition rating_of_info (r : InfoReply) : RatingReply :=
  match r with
  | InfoUnavailable => RatingUnavailable
  | InfoNotFound t => RatingNotFound t
  | InfoFound c => RatingFound (card_title c) (card_rating c)
  end.

(** A cache as the load step builds it: every normalised title is the
    normalisation of the stored title. *)
Definition cache_consistent (c : list Entry) : Prop :=
  Forall (fun e => title_norm e = _normalize (title e)) c.

(** The cache of a state was loaded from the rows [rows], or not yet
    loaded at all. *)
Definition state_for (rows : list Movie) (s : State) : Prop :=
  s = initial_state \/ s = mkState (map cache_entry rows) true.

(** The characters [%] and [_] do not occur in [s]. *)
Definition wildcard_free (s : str) : bool :=
  forallb (fun c => negb (Ascii.eqb c "%"%char || Ascii.eqb c "_"%char)) s.

(** Case-insensitive (ASCII) substring test. *)
Definition contains_nocase (p s : str) : bool :=
  is_substring (sql_lower p) (sql_lower s).

(** The first character of [s] is whitespace. *)
Definition starts_with_space (s : str) : bool :=
  match s with c :: _ => is_space c | [] => false end.

(** The last character of [s] is whitespace. *)
Definition ends_with_space (s : str) : bool := starts_with_space (rev s).

(** The row has a title (the column is not NULL). *)
Definition has_title (m : Movie) : bool :=
  match Series_Title m with Some _ => true | None => false end.

(** The row's title is not NULL and contains [norm], up to ASCII case. *)
Definition titled_with (norm : str) (m : Movie) : bool :=
  match Series_Title m with
  | Some t => contains_nocase norm t
  | None => false
  end.

(** The outcome of the rating tool that corresponds to an outcome of
    the description tool. *)
Definition rating_outcome (o : Outcome InfoReply) : Outcome RatingReply :=
  match o with
  | Return r => Return (rating_of_info r)
  | Raise e => Raise e
  end.

(* ================================================================== *)
(** * Text of arbitrary code points *)
(* ================================================================== *)

(** The dialogue texts of [memory.py] and [agent.py] are Russian; for
    them a Python [str] is a list of Unicode code points.  [str.lower]
    is not modelled: the functions that call it take it as the
    parameter [lower]. *)
Definition text := list N.

(** Decoding of the UTF-8 bytes of a literal into its code points. *)
Fixpoint utf8_decode (bs : list N) : text :=
  match bs with
  | [] => []
  | b :: r =>
      if (b <? 128)%N then b :: utf8_decode r
      else if (b <? 224)%N then
        match r with
        | c1 :: r' => ((b - 192) * 64 + (c1 - 128))%N :: utf8_decode r'
        | [] => []
        end
      else if (b <? 240)%N then
        match r with
        | c1 :: c2 :: r' =>
            ((b - 224) * 4096 + (c1 - 128) * 64 + (c2 - 128))%N
            :: utf8_decode r'
        | _ => []
        end
      else
        match r with
        | c1 :: c2 :: c3 :: r' =>
            ((b - 240) * 262144 + (c1 - 128) * 4096
             + (c2 - 128) * 64 + (c3 - 128))%N
            :: utf8_decode r'
        | _ => []
        end
  end.

(** Literal helper: [utf8 "..."] is the Python string with that text. *)
Definition utf8 (s : string) : text :=
  utf8_decode (map N_of_ascii (list_ascii_of_string s)).

(** The newline character. *)
Definition nl : text := [10%N].

Fixpoint text_eqb (a b : text) : bool :=
  match a, b with
  | [], [] => true
  | x :: a', y :: b' => (x =? y)%N && text_eqb a' b'
  | _, _ => false
  end.

(** Python truthiness of a string. *)
Definition text_empty (t : text) : bool :=
  match t with [] => true | _ :: _ => false end.

(** Python truthiness of an optional string: [None] and [''] are
    falsy. *)
Definition truthy (o : option text) : bool :=
  match o with Some (_ :: _) => true | _ => false end.

Fixpoint text_prefix (p s : text) : bool :=
  match p, s with
  | [], _ => true
  | x :: p', y :: s' => (x =? y)%N && text_prefix p' s'
  | _ :: _, [] => false
  end.

(** [p in s] for strings. *)
Fixpoint text_in (p s : text) : bool :=
  text_prefix p s
  || match s with [] => false | _ :: s' => text_in p s' end.

(** [x in xs] for a collection of strings. *)
Definition text_mem (x : text) (xs : list text) : bool :=
  existsb (text_eqb x) xs.

(** [sep.join(parts)]. *)
Fixpoint text_join (sep : text) (parts : list text) : text :=
  match parts with
  | [] => []
  | [p] => p
  | p :: ps => p ++ sep ++ text_join sep ps
  end.

(** [str.isspace] for one code point. *)
Definition is_uspace (c : N) : bool :=
  ((9 <=? c) && (c <=? 13) || (28 <=? c) && (c <=? 32)
   || (c =? 133) || (c =? 160) || (c =? 5760)
   || (8192 <=? c) && (c <=? 8202)
   || (c =? 8232) || (c =? 8233) || (c =? 8239) || (c =? 8287)
   || (c =? 12288))%N.

Fixpoint text_lstrip (s : text) : text :=
  match s with
  | c :: s' => if is_uspace c then text_lstrip s' else s
  | [] => []
  end.

Definition text_rstrip (s : text) : text := rev (text_lstrip (rev s)).

(** [s.strip()]. *)
Definition text_strip (s : text) : text := text_rstrip (text_lstrip s).

(** [l[-n:]] for a positive [n]: the last [n] elements, all of [l] when
    it is shorter. *)
Definition last_n {A : Type} (n : nat) (l : list A) : list A :=
  skipn (length l - n) l.

(* ================================================================== *)
(** * The conversation memory *)
(* ================================================================== *)

Definition MAX_HISTORY : nat := 100.

Record Message := mkMessage {
  role : text;
  content : text
}.

(** The profile dict with the five keys of its default factory. *)
Record Profile := mkProfile {
  name : option text;
  genres : list text;
  actors : list text;
  directors : list text;
  movies : list text
}.

(** The keys of the profile that hold lists. *)
Inductive ListKey := Genres | Actors | Directors | Movies.

Definition profile_get (key : ListKey) (p : Profile) : list text :=
  match key with
  | Genres => genres p
  | Actors => actors p
  | Directors => directors p
  | Movies => movies p
  end.

Definition profile_set (key : ListKey) (arr : list text) (p : Profile)
  : Profile :=
  match key with
  | Genres => mkProfile (name p) arr (actors p) (directors p) (movies p)
  | Actors => mkProfile (name p) (genres p) arr (directors p) (movies p)
  | Directors => mkProfile (name p) (genres p) (actors p) arr (movies p)
  | Movies => mkProfile (name p) (genres p) (actors p) (directors p) arr
  end.

(** A [Memory] object together with what its last [_save] wrote to
    [MEMORY_FILE] ([None]: nothing written yet). *)
Record Memory := mkMemory {
  history : list Message;
  profile : Profile;
  saved : option (Profile * list Message)
}.

(** [Memory._save]. *)
Definition _save (m : Memory) : Memory :=
  mkMemory (history m) (profile m) (Some (profile m, history m)).

(** [role in ("user", "assistant")]. *)
Definition role_kept (r : text) : bool :=
  text_eqb r (utf8 "user") || text_eqb r (utf8 "assistant").

(** [Memory.add]. *)
Definition memory_add (role content : text) (m : Memory) : Memory :=
  if negb (role_kept role) then m
  else
    let history := history m ++ [mkMessage role content] in
    let history :=
      if MAX_HISTORY <? length history then last_n MAX_HISTORY history
      else history in
    _save (mkMemory history (profile m) (saved m)).

(** [Memory._append_unique]. *)
Definition _append_unique (lower : text -> text) (key : ListKey)
    (value : text) (m : Memory) : Memory :=
  let arr := profile_get key (profile m) in
  let arr :=
    if negb (text_mem (lower value) (map lower arr)) then arr ++ [value]
    else arr in
  mkMemory (history m) (profile_set key arr (profile m)) (saved m).

(** [Memory.user_name]. *)
Definition user_name (m : Memory) : option text := name (profile m).

(** One part of the preferences text: [label + ", ".join(items)] when
    [items] is not empty. *)
Definition preference_part (label : text) (items : list text)
  : list text :=
  match items with
  | [] => []
  | _ :: _ => [label ++ text_join (utf8 ", ") items]
  end.

(** [Memory.get_preferences_text]. *)
Definition get_preferences_text (m : Memory) : option text :=
  let result :=
    preference_part (utf8 "любимые жанры: ") (genres (profile m))
    ++ preference_part (utf8 "любимые актёры: ") (actors (profile m))
    ++ preference_part (utf8 "любимые режиссёры: ") (directors (profile m))
    ++ preference_part (utf8 "любимые фильмы: ") (movies (profile m)) in
  match result with
  | [] => None
  | _ :: _ =>
      Some (utf8 "У пользователя " ++ text_join (utf8 "; ") result
            ++ utf8 ".")
  end.

(** [answer_from_memory_if_applicable]. *)
Definition answer_from_memory_if_applicable (lower : text -> text)
    (user_text : text) (memory : Memory) : option text :=
  let low := lower user_text in
  if text_in (utf8 "как меня зовут") low then
    match user_name memory with
    | Some (c :: n) => Some (utf8 "Тебя зовут " ++ (c :: n) ++ utf8 ".")
    | _ => Some (utf8 "Я ещё не знаю, как тебя зовут.")
    end
  else if text_in (utf8 "какие жанры я люблю") low then
    match genres (profile memory) with
    | _ :: _ =>
        Some (utf8 "Ты любишь "
              ++ text_join (utf8 ", ") (genres (profile memory))
              ++ utf8 ".")
    | [] => Some (utf8 "Я пока не знаю, какие жанры ты любишь.")
    end
  else if text_in (utf8 "что я люблю") low then
    match get_preferences_text memory with
    | Some (c :: prefs) => Some (c :: prefs)
    | _ => Some (utf8 "Ты пока не рассказала, что ты любишь.")
    end
  else None.

(* ================================================================== *)
(** * The agent's message building and answer formatting *)
(* ================================================================== *)

(** The text appended to an answer that carries no explanation. *)
Definition formal_explanation : text :=
  utf8 "Пояснение: Я сформировал этот ответ, опираясь на твой запрос, контекст диалога "
  ++ utf8 "и данные из доступных инструментов и своей памяти, если это было необходимо.".

(** The answer for an empty text. *)
Definition empty_answer : text :=
  utf8 "Я не смог сформировать осмысленный ответ." ++ nl
  ++ utf8 "Пояснение: Я столкнулся с внутренней ошибкой при обработке запроса.".

(** [format_final_answer]; [None] is an absent text. *)
Definition format_final_answer (lower : text -> text) (raw : option text)
  : text :=
  let text := text_strip (match raw with Some r => r | None => [] end) in
  if text_empty text then empty_answer
  else if text_in (utf8 "пояснение:") (lower text) then text
  else text ++ nl ++ nl ++ formal_explanation.

(** The profile block of the system message. *)
Definition profile_block (memory : Memory) : text :=
  let prefs_text := get_preferences_text memory in
  if truthy (user_name memory) || truthy prefs_text then
    (nl ++ utf8 "[Профиль пользователя]" ++ nl)
    ++ (match user_name memory with
        | Some (c :: n) =>
            utf8 "Имя пользователя: " ++ (c :: n) ++ nl
        | _ => []
        end)
    ++ (match prefs_text with
        | Some (c :: p) => (c :: p) ++ nl
        | _ => []
        end)
  else [].

(** [build_messages]; [SYSTEM_PROMPT] is the constant of [prompt.py]. *)
Definition build_messages (SYSTEM_PROMPT : text) (memory : Memory)
    (user_input : text) : list Message :=
  [mkMessage (utf8 "system") (SYSTEM_PROMPT ++ profile_block memory)]
  ++ map (fun msg => mkMessage (role msg) (content msg))
         (filter (fun msg => role_kept (role msg))
                 (last_n 12 (history memory)))
  ++ [mkMessage (utf8 "user") user_input].

(** A lower-casing of ASCII and Russian letters, for running examples. *)
Definition sample_lower (t : text) : text :=
  map (fun c =>
         if ((65 <=? c) && (c <=? 90) || (1040 <=? c) && (c <=? 1071))%N
         then (c + 32)%N
         else if (c =? 1025)%N then 1105%N else c) t.

(* ================================================================== *)
(** * The rows the limit-taking tools select *)
(* ================================================================== *)

(** The [WHERE] clause of the actor tool. *)
Definition stars_like (pat : str) (m : Movie) : bool :=
  like pat (sql_lower (coalesce (Star1 m)))
  || like pat (sql_lower (coalesce (Star2 m)))
  || like pat (sql_lower (coalesce (Star3 m)))
  || like pat (sql_lower (coalesce (Star4 m))).

(** The [WHERE] clause of the genre tool. *)
Definition genre_like (pat : str) (m : Movie) : bool :=
  like pat (sql_lower (coalesce (Genre m))).

(** The [WHERE] clause of the keyword tool. *)
Definition overview_like (pat : str) (m : Movie) : bool :=
  like pat (sql_lower (coalesce (Overview m))).

(** [listed] holds the [n] best-rated rows of [all] (all of them when
    there are fewer), best first: it is in descending order of rating
    and no row left out is rated higher than a listed one. *)
Definition top_rated (listed all : list Movie) (n : nat) : Prop :=
  exists rest,
    Permutation (listed ++ rest) all
    /\ length listed = Nat.min n (length all)
    /\ sorted_desc (map IMDB_Rating listed)
    /\ Forall (fun x =>
                 Forall (fun y => (IMDB_Rating y <= IMDB_Rating x)%Q) rest)
              listed.

(** The reply of a rating-ordered tool for the selected rows. *)
Definition rated_reply (listing : list RatedRow -> Reply) (arg : str)
    (listed : list Movie) : Reply :=
  match listed with
  | [] => NothingFound arg
  | _ :: _ => listing (map rated_row listed)
  end.

(** The line of the keyword tool for a row: the title and the first 150
    characters of the synopsis. *)
Definition excerpt (m : Movie) : option str * str :=
  (Series_Title m, firstn 150 (coalesce (Overview m))).

(** The synopsis column of the row is NULL. *)
Definition null_overview (m : Movie) : bool :=
  match Overview m with None => true | Some _ => false end.

(* ------------------------------------------------------------------ *)
(** ** The rolling rows compute the distance matrix *)
(* ------------------------------------------------------------------ *)

Section LevenshteinRows.

Variables a b : str.

Lemma lev_matrix_0_l j : lev_matrix a b 0 j = j.
Proof. reflexivity. Qed.

Lemma lev_matrix_0_r i : lev_matrix a b i 0 = i.
Proof. destruct i; reflexivity. Qed.

Lemma lev_matrix_S i j :
  lev_matrix a b (S i) (S j) =
  min3 (lev_matrix a b (S i) j + 1)
       (lev_matrix a b i (S j) + 1)
       (lev_matrix a b i j + subst_cost (nth i a zero) (nth j b zero)).
Proof. reflexivity. Qed.

Lemma matrix_row_length i n : length (matrix_row a b i n) = n.
Proof. unfold matrix_row. now rewrite length_map, length_seq. Qed.

Lemma matrix_row_nth i n j d :
  j < n -> nth j (matrix_row a b i n) d = lev_matrix a b i j.
Proof.
  intros Hj. unfold matrix_row.
  rewrite (nth_indep _ d (lev_matrix a b i 0)) by (now rewrite length_map, length_seq).
  rewrite map_nth, seq_nth by exact Hj. reflexivity.
Qed.

Lemma matrix_row_snoc i n :
  matrix_row a b i (S n) = matrix_row a b i n ++ [lev_matrix a b i n].
Proof. unfold matrix_row. now rewrite seq_S, map_app. Qed.

Lemma matrix_row_last i n d :
  last (matrix_row a b i (S n)) d = lev_matrix a b i n.
Proof. rewrite matrix_row_snoc. apply last_last. Qed.

(** Inner loop: with [k] cells of row [S i] already in [cur_row], the
    remaining characters of [b] complete the row. *)
Lemma inner_loop_row i bsuf : forall bpre,
  b = bpre ++ bsuf -> i < length a ->
  fold_left (inner_step (nth i a zero) (matrix_row a b i (S (length b))))
            (enumerate (S (length bpre)) bsuf)
            (matrix_row a b (S i) (S (length bpre)))
  = matrix_row a b (S i) (S (length b)).
Proof.
  induction bsuf as [|cb bsuf IH]; intros bpre Hb Hi.
  - rewrite app_nil_r in Hb. subst bpre. reflexivity.
  - assert (Hlen : length b = length bpre + S (length bsuf))
      by (rewrite Hb at 1; now rewrite length_app).
    assert (Hcb : nth (length bpre) b zero = cb)
      by (rewrite Hb; rewrite app_nth2, Nat.sub_diag by lia; reflexivity).
    cbn [enumerate fold_left]. unfold inner_step at 2.
    replace (S (length bpre) - 1) with (length bpre) by lia.
    rewrite !matrix_row_nth by lia.
    rewrite <- Hcb, <- lev_matrix_S, <- matrix_row_snoc.
    specialize (IH (bpre ++ [cb])).
    rewrite length_app, Nat.add_1_r in IH.
    apply IH; [|exact Hi].
    rewrite <- app_assoc. exact Hb.
Qed.

Lemma outer_step_row i :
  i < length a ->
  outer_step b (matrix_row a b i (S (length b))) (S i, nth i a zero)
  = matrix_row a b (S i) (S (length b)).
Proof.
  intros Hi. unfold outer_step.
  apply (inner_loop_row i b []); [reflexivity | exact Hi].
Qed.

(** Outer loop: starting from row [k], the remaining characters of [a]
    lead to the last row. *)
Lemma outer_loop_rows asuf : forall apre,
  a = apre ++ asuf ->
  fold_left (outer_step b) (enumerate (S (length apre)) asuf)
            (matrix_row a b (length apre) (S (length b)))
  = matrix_row a b (length a) (S (length b)).
Proof.
  induction asuf as [|ca asuf IH]; intros apre Ha.
  - rewrite app_nil_r in Ha. subst apre. reflexivity.
  - assert (Hlen : length a = length apre + S (length asuf))
      by (rewrite Ha at 1; now rewrite length_app).
    assert (Hca : nth (length apre) a zero = ca)
      by (rewrite Ha; rewrite app_nth2, Nat.sub_diag by lia; reflexivity).
    cbn [enumerate fold_left]. rewrite <- Hca.
    rewrite outer_step_row by lia.
    specialize (IH (apre ++ [ca])).
    rewrite length_app, Nat.add_1_r in IH.
    apply IH. rewrite <- app_assoc. exact Ha.
Qed.

Lemma lev_rows_matrix :
  lev_rows a b = matrix_row a b (length a) (length b + 1).
Proof.
  unfold lev_rows. rewrite Nat.add_1_r.
  replace (seq 0 (S (length b)))
    with (matrix_row a b (length (@nil ascii)) (S (length b))).
  - apply (outer_loop_rows a []). reflexivity.
  - unfold matrix_row. cbn [length]. apply map_id.
Qed.

(** Every row the loops build has [len(b) + 1] cells, so the index
    reads [cur_row[j - 1]], [prev_row[j]] and [prev_row[j - 1]] for
    [1 <= j <= len(b)] are in range. *)
Lemma lev_rows_length : length (lev_rows a b) = length b + 1.
Proof. rewrite lev_rows_matrix. apply matrix_row_length. Qed.

Lemma lev_rows_last :
  last (lev_rows a b) 0 = levenshtein_spec a b.
Proof.
  rewrite lev_rows_matrix, Nat.add_1_r. apply matrix_row_last.
Qed.

End LevenshteinRows.

(* ------------------------------------------------------------------ *)
(** ** Facts about the distance matrix and [_levenshtein] *)
(* ------------------------------------------------------------------ *)

Lemma str_eqb_spec a : forall b, reflect (a = b) (str_eqb a b).
Proof.
  induction a as [|x a IH]; intros [|y b]; cbn;
    try (constructor; congruence).
  destruct (Ascii.eqb_spec x y) as [->|Hxy]; cbn.
  - destruct (IH b) as [->|Hab]; constructor; congruence.
  - constructor; congruence.
Qed.

Lemma str_eqb_refl a : str_eqb a a = true.
Proof. now destruct (str_eqb_spec a a). Qed.

Lemma subst_cost_sym x y : subst_cost x y = subst_cost y x.
Proof. unfold subst_cost. now rewrite Ascii.eqb_sym. Qed.

Lemma subst_cost_refl x : subst_cost x x = 0.
Proof. unfold subst_cost. now rewrite Ascii.eqb_refl. Qed.

Lemma subst_cost_le_1 x y : subst_cost x y <= 1.
Proof. unfold subst_cost. destruct (Ascii.eqb x y); lia. Qed.

Lemma lev_matrix_sym a b i : forall j,
  lev_matrix a b i j = lev_matrix b a j i.
Proof.
  induction i as [|i IHi]; intros j.
  - now rewrite lev_matrix_0_l, lev_matrix_0_r.
  - induction j as [|j IHj].
    + now rewrite lev_matrix_0_l, lev_matrix_0_r.
    + rewrite !lev_matrix_S, IHj, !IHi, subst_cost_sym.
      unfold min3. lia.
Qed.

Lemma lev_matrix_diag a i : lev_matrix a a i i = 0.
Proof.
  induction i as [|i IH]; [reflexivity|].
  rewrite lev_matrix_S, IH, subst_cost_refl. unfold min3. lia.
Qed.

(** The distance never exceeds the longer of the two prefixes. *)
Lemma lev_matrix_le_max a b i : forall j,
  lev_matrix a b i j <= Nat.max i j.
Proof.
  induction i as [|i IHi]; intros j.
  - rewrite lev_matrix_0_l. lia.
  - destruct j as [|j].
    + rewrite lev_matrix_0_r. lia.
    + rewrite lev_matrix_S.
      pose proof (IHi j). pose proof (subst_cost_le_1 (nth i a zero) (nth j b zero)).
      unfold min3. lia.
Qed.

Lemma str_empty_spec s : str_empty s = true <-> s = [].
Proof. destruct s; cbn; split; congruence. Qed.

(** The implementation, shortcuts included, returns the matrix entry
    for the two full strings. *)
Lemma levenshtein_matrix a b : _levenshtein a b = levenshtein_spec a b.
Proof.
  unfold _levenshtein.
  destruct (str_eqb_spec a b) as [->|Hne].
  - unfold levenshtein_spec. now rewrite lev_matrix_diag.
  - destruct a as [|x a]; [reflexivity|].
    destruct b as [|y b]; [reflexivity|].
    cbn [str_empty]. apply lev_rows_last.
Qed.

Lemma levenshtein_sym a b : _levenshtein a b = _levenshtein b a.
Proof.
  rewrite !levenshtein_matrix. unfold levenshtein_spec.
  apply lev_matrix_sym.
Qed.


(** C5.  Levenshtein(a, a) = 0, Levenshtein("", a) = len(a),
    Levenshtein(a, "") = len(a), and Levenshtein(a, b) =
    Levenshtein(b, a), for all strings [a] and [b]. *)
Theorem levenshtein_identity_empty_symmetry :
  (forall a, _levenshtein a a = 0)
  /\ (forall a, _levenshtein [] a = length a)
  /\ (forall a, _levenshtein a [] = length a)
  /\ (forall a b, _levenshtein a b = _levenshtein b a).
Proof.
  repeat split.
  - intros a. unfold _levenshtein. now rewrite str_eqb_refl.
  - intros [|x a]; reflexivity.
  - intros [|x a]; reflexivity.
  - exact levenshtein_sym.
Qed.

(* ================================================================== *)
(** * Rational arithmetic helpers *)
(* ================================================================== *)

(** Comparisons between rational constants. *)
Ltac q_const := unfold Qle, Qlt; cbn; lia.

Lemma Qltb_lt x y : Qltb x y = true <-> (x < y)%Q.
Proof.
  unfold Qltb. rewrite negb_true_iff.
  split; intros H.
  - apply Qnot_le_lt. intros Hle. apply Qle_bool_iff in Hle. congruence.
  - destruct (Qle_bool y x) eqn:E; [|reflexivity].
    apply Qle_bool_iff in E. exfalso. exact (Qlt_not_le _ _ H E).
Qed.

Lemma Qltb_ge x y : Qltb x y = false <-> (y <= x)%Q.
Proof.
  unfold Qltb. rewrite negb_false_iff. apply Qle_bool_iff.
Qed.








(* ================================================================== *)
(** * The score: range *)
(* ================================================================== *)




(* ================================================================== *)
(** * The score: agreement with the specified formula *)
(* ================================================================== *)










(* ================================================================== *)
(** * The best-title scan *)
(* ================================================================== *)

Section Scan.

Variable q : str.

Local Notation "'score'" := (_fuzzy_score q).

Lemma first_maximum_all_le c e :
  first_maximum score c e -> Forall (fun x => (score x <= score e)%Q) c.
Proof.
  intros (pre & post & -> & Hpre & Hpost).
  apply Forall_app. split.
  - eapply Forall_impl; [|exact Hpre]. intros x Hx. now apply Qlt_le_weak.
  - constructor; [apply Qle_refl | exact Hpost].
Qed.

Lemma first_maximum_In c e : first_maximum score c e -> In e c.
Proof.
  intros (pre & post & -> & _). apply in_or_app. right. now left.
Qed.

(** The first maximum is unique. *)
Lemma first_maximum_unique c e e' :
  first_maximum score c e -> first_maximum score c e' -> e = e'.
Proof.
  intros (pre & post & Hc & Hpre & Hpost) (pre' & post' & Hc' & Hpre' & Hpost').
  rewrite Hc in Hc'. apply app_eq_app in Hc' as [l [[H1 H2]|[H1 H2]]].
  - destruct l as [|y l]; cbn in H2; injection H2 as Hy Hl; [congruence|].
    subst y. exfalso.
    rewrite Forall_forall in Hpre, Hpost'.
    assert (Hlt : (score e' < score e)%Q).
    { apply Hpre. rewrite H1. apply in_or_app. right. now left. }
    assert (Hle : (score e <= score e')%Q).
    { apply Hpost'. rewrite Hl. apply in_or_app. right. now left. }
    exact (Qlt_not_le _ _ Hlt Hle).
  - destruct l as [|y l]; cbn in H2; injection H2 as Hy Hl; [congruence|].
    subst y. exfalso.
    rewrite Forall_forall in Hpre', Hpost.
    assert (Hlt : (score e < score e')%Q).
    { apply Hpre'. rewrite H1. apply in_or_app. right. now left. }
    assert (Hle : (score e' <= score e)%Q).
    { apply Hpost. rewrite Hl. apply in_or_app. right. now left. }
    exact (Qlt_not_le _ _ Hlt Hle).
Qed.

Lemma scan_step_inv done best item :
  scan_inv q done best ->
  scan_inv q (done ++ [item]) (scan_step q best item).
Proof.
  destruct best as [bt bs]. unfold scan_inv, scan_step. cbn [fst snd].
  destruct (Qltb bs (score item)) eqn:E; cbn [fst snd].
  - apply Qltb_lt in E. intros Hinv.
    exists item. split; [reflexivity|]. split; [reflexivity|].
    destruct bt as [t|].
    + destruct Hinv as (e & _ & Hbs & Hpos & Hmax). rewrite Hbs in E.
      split; [now apply Qlt_trans with (score e)|].
      exists done, []. split; [reflexivity|]. split; [|constructor].
      eapply Forall_impl; [|exact (first_maximum_all_le done e Hmax)].
      intros x Hx. now apply Qle_lt_trans with (score e).
    + destruct Hinv as [Hbs Hall]. rewrite Hbs in E.
      split; [exact E|].
      exists done, []. split; [reflexivity|]. split; [|constructor].
      eapply Forall_impl; [|exact Hall].
      intros x Hx. now apply Qle_lt_trans with 0%Q.
  - apply Qltb_ge in E. destruct bt as [t|].
    + intros (e & Ht & Hbs & Hpos & (pre & post & Hd & Hpre & Hpost)).
      exists e. repeat split; try assumption.
      exists pre, (post ++ [item]). split.
      * rewrite Hd, <- app_assoc. reflexivity.
      * split; [exact Hpre|]. apply Forall_app. split; [exact Hpost|].
        constructor; [|constructor]. now rewrite <- Hbs.
    + intros [Hbs Hall]. split; [exact Hbs|].
      apply Forall_app. split; [exact Hall|].
      constructor; [|constructor]. now rewrite <- Hbs.
Qed.

Lemma scan_fold_inv rest : forall done best,
  scan_inv q done best ->
  scan_inv q (done ++ rest) (fold_left (scan_step q) rest best).
Proof.
  induction rest as [|item rest IH]; intros done best Hinv; cbn [fold_left].
  - now rewrite app_nil_r.
  - replace (done ++ item :: rest) with ((done ++ [item]) ++ rest)
      by (now rewrite <- app_assoc).
    apply IH. now apply scan_step_inv.
Qed.

Lemma scan_inv_final c : scan_inv q c (scan q c).
Proof.
  unfold scan. apply (scan_fold_inv c [] (None, 0%Q)).
  split; [reflexivity | constructor].
Qed.

End Scan.

Lemma scan_result_spec q c : best_title_spec q c (scan_result q c).
Proof.
  unfold scan_result, best_title_spec.
  pose proof (scan_inv_final q c) as Hinv.
  destruct (scan q c) as [bt bs]. unfold scan_inv in Hinv. cbn [fst snd] in Hinv.
  destruct (Qltb bs 0.6) eqn:E.
  - apply Qltb_lt in E. split; [intros t; split; [discriminate|] | split; [intros _ | reflexivity]].
    + intros (e & _ & Hge & Hmax). exfalso.
      destruct bt as [t'|].
      * destruct Hinv as (e' & _ & Hbs & _ & Hmax').
        rewrite (first_maximum_unique _ _ _ _ Hmax Hmax'), <- Hbs in Hge.
        exact (Qlt_not_le _ _ E Hge).
      * destruct Hinv as [_ Hall]. rewrite Forall_forall in Hall.
        specialize (Hall e (first_maximum_In _ _ _ Hmax)).
        assert (H : (0.6 <= 0)%Q) by (now apply Qle_trans with (_fuzzy_score q e)).
        revert H. q_const.
    + destruct bt as [t'|].
      * destruct Hinv as (e' & _ & Hbs & _ & Hmax').
        eapply Forall_impl; [|exact (first_maximum_all_le _ _ _ Hmax')].
        intros x Hx. rewrite Hbs in E. now apply Qle_lt_trans with (_fuzzy_score q e').
      * destruct Hinv as [_ Hall]. eapply Forall_impl; [|exact Hall].
        intros x Hx. apply Qle_lt_trans with 0%Q; [exact Hx|]. q_const.
  - apply Qltb_ge in E. destruct bt as [t'|].
    + destruct Hinv as (e' & Ht' & Hbs & _ & Hmax'). rewrite Hbs in E.
      split; [intros t; split | split; [discriminate|]].
      * intros [= <-]. exists e'. now repeat split.
      * intros (e & -> & _ & Hmax).
        now rewrite Ht', (first_maximum_unique _ _ _ _ Hmax Hmax').
      * intros Hall. exfalso. rewrite Forall_forall in Hall.
        specialize (Hall e' (first_maximum_In _ _ _ Hmax')).
        exact (Qlt_not_le _ _ Hall E).
    + destruct Hinv as [Hbs _]. exfalso. rewrite Hbs in E.
      revert E. q_const.
Qed.

(** With an empty normalised query no entry ever beats the initial
    best score. *)
Lemma scan_empty_query c : scan [] c = (None, 0%Q).
Proof.
  unfold scan. induction c as [|item c IH]; [reflexivity|].
  cbn [fold_left]. exact IH.
Qed.

Lemma str_empty_true s : str_empty s = true -> s = [].
Proof. apply str_empty_spec. Qed.

(** The call either propagates the failure of the load step or returns
    the scan result for the normalised query over the loaded cache. *)
Lemma find_best_title_run st query s :
  _fuzzy_find_best_title st query s =
  match _load_movies_cache st s with
  | (s1, Raise e) => (s1, Raise e)
  | (s1, Return _) =>
      (s1, Return (scan_result (_normalize query) (_MOVIES_CACHE s1)))
  end.
Proof.
  unfold _fuzzy_find_best_title.
  destruct (_load_movies_cache st s) as [s1 [u|e]]; [|reflexivity].
  destruct (_MOVIES_CACHE s1) as [|item c] eqn:Ec; [reflexivity|].
  destruct (str_empty (_normalize query)) eqn:Eq.
  - apply str_empty_true in Eq. rewrite Eq.
    unfold scan_result. now rewrite scan_empty_query.
  - unfold scan_result.
    destruct (scan (_normalize query) (item :: c)) as [bt bs].
    now destruct (Qltb bs 0.6).
Qed.


(* ================================================================== *)
(** * Exact matches *)
(* ================================================================== *)






(* ================================================================== *)
(** * Token overlap and the score *)
(* ================================================================== *)








(* ================================================================== *)
(** * The load step *)
(* ================================================================== *)

Lemma load_when_loaded st s :
  _MOVIES_CACHE_LOADED s = true -> _load_movies_cache st s = (s, Return tt).
Proof. intros H. unfold _load_movies_cache. now rewrite H. Qed.

(** A load step that returns leaves the flag set. *)
Lemma load_returns_loaded st s s1 u :
  _load_movies_cache st s = (s1, Return u) -> _MOVIES_CACHE_LOADED s1 = true.
Proof.
  unfold _load_movies_cache.
  destruct (_MOVIES_CACHE_LOADED s) eqn:El.
  - intros [= <- _]. exact El.
  - destruct st; cbn; intros H; inversion H; reflexivity.
Qed.

(** A load step that raises leaves the state as it was. *)
Lemma load_raises_unchanged st s s1 e :
  _load_movies_cache st s = (s1, Raise e) ->
  s1 = s /\ st = QueryFails /\ e = OperationalError
  /\ _MOVIES_CACHE_LOADED s = false.
Proof.
  unfold _load_movies_cache.
  destruct (_MOVIES_CACHE_LOADED s) eqn:El; [discriminate|].
  destruct st; cbn; intros H; inversion H; auto.
Qed.

(** A failing load is not always handled locally: when the file exists
    but the query raises, the exception leaves the load step; the cache stays empty
    and is not marked as loaded. *)
Lemma failing_query_leaves_load_step :
  _load_movies_cache QueryFails initial_state
  = (initial_state, Raise OperationalError)
  /\ snd (_load_movies_cache QueryFails initial_state) <> Return tt.
Proof. split; [reflexivity | discriminate]. Qed.

(** C7 (amended).  From the state before the first load: an absent file
    gives an empty cache marked as loaded and no error; a failing query
    raises to the caller and leaves the cache empty and unmarked; a
    readable table gives one entry per row, in row order, and no error.
    The cache is never partially populated. *)
Theorem load_all_or_nothing :
  forall (st : Store) (s : State),
    _MOVIES_CACHE_LOADED s = false ->
    _MOVIES_CACHE s = [] ->
    match st with
    | FileAbsent =>
        _load_movies_cache st s = (mkState [] true, Return tt)
    | QueryFails =>
        _load_movies_cache st s = (s, Raise OperationalError)
        /\ _MOVIES_CACHE (fst (_load_movies_cache st s)) = []
    | Table rows =>
        _load_movies_cache st s
        = (mkState (map cache_entry rows) true, Return tt)
        /\ length (map cache_entry rows) = length rows
    end.
Proof.
  intros st s Hl Hc. unfold _load_movies_cache. rewrite Hl.
  destruct st as [| |rows]; cbn.
  - reflexivity.
  - split; [reflexivity | exact Hc].
  - split; [reflexivity | apply length_map].
Qed.

Lemma load_all_or_nothing_witness :
  _load_movies_cache QueryFails initial_state
  = (initial_state, Raise OperationalError)
  /\ _MOVIES_CACHE (fst (_load_movies_cache QueryFails initial_state)) = [].
Proof.
  apply (load_all_or_nothing QueryFails initial_state); reflexivity.
Defined.

(** C8.  Calling the load step twice leaves the state, and so the cached
    entries, as calling it once does; once a call has returned, every
    later call returns at once without touching the state, whatever the
    store then holds. *)
Theorem load_idempotent :
  forall (st : Store) (s : State),
    fst (_load_movies_cache st (fst (_load_movies_cache st s)))
    = fst (_load_movies_cache st s)
    /\ _MOVIES_CACHE
         (fst (_load_movies_cache st (fst (_load_movies_cache st s))))
       = _MOVIES_CACHE (fst (_load_movies_cache st s))
    /\ match snd (_load_movies_cache st s) with
       | Return _ =>
           forall st', _load_movies_cache st' (fst (_load_movies_cache st s))
                       = (fst (_load_movies_cache st s), Return tt)
       | Raise e =>
           _load_movies_cache st (fst (_load_movies_cache st s))
           = (fst (_load_movies_cache st s), Raise e)
       end.
Proof.
  intros st s.
  destruct (_load_movies_cache st s) as [s1 [u|e]] eqn:E; cbn [fst snd].
  - pose proof (load_returns_loaded _ _ _ _ E) as Hl.
    rewrite (load_when_loaded st s1 Hl). cbn [fst].
    repeat split. intros st'. now apply load_when_loaded.
  - destruct (load_raises_unchanged _ _ _ _ E) as (-> & _ & _ & _).
    rewrite E. cbn [fst]. repeat split.
Qed.

(* ================================================================== *)
(** * Empty queries *)
(* ================================================================== *)

(** A blank query does index work: on a fresh process it builds the cache from the table before it answers, and with
    a failing query the call raises instead of answering. *)
Lemma blank_query_builds_index :
  _normalize (s2l "   ") = []
  /\ _fuzzy_find_best_title (Table [inception]) (s2l "   ") initial_state
     = (mkState [cache_entry inception] true, Return None)
  /\ fst (_fuzzy_find_best_title (Table [inception]) (s2l "   ")
            initial_state)
     <> initial_state
  /\ snd (_fuzzy_find_best_title QueryFails (s2l "   ") initial_state)
     = Raise OperationalError.
Proof.
  split; [reflexivity|]. split; [reflexivity|].
  split; [discriminate | reflexivity].
Qed.

(** C4 (amended).  For a query that is empty after normalisation the
    call runs the load step and nothing else: it ends in the state the
    load step leaves, returns no title when the load step returns,
    whatever the cache holds, and raises what the load step raises. *)
Theorem empty_query_absent_after_load :
  forall (st : Store) (query : str) (s : State),
    _normalize query = [] ->
    _fuzzy_find_best_title st query s
    = (fst (_load_movies_cache st s),
       match snd (_load_movies_cache st s) with
       | Return _ => Return None
       | Raise e => Raise e
       end).
Proof.
  intros st query s Hq. rewrite find_best_title_run, Hq.
  destruct (_load_movies_cache st s) as [s1 [u|e]]; cbn [fst snd];
    [|reflexivity].
  unfold scan_result. now rewrite scan_empty_query.
Qed.

Lemma empty_query_absent_after_load_witness :
  _fuzzy_find_best_title (Table [rings; rings2]) (s2l "   ")
                         (mkState [cache_entry inception] true)
  = (mkState [cache_entry inception] true, Return None).
Proof.
  apply (empty_query_absent_after_load
           (Table [rings; rings2]) (s2l "   ")
           (mkState [cache_entry inception] true)).
  reflexivity.
Defined.

(* ================================================================== *)
(** * The limit parameter of the query tools *)
(* ================================================================== *)

Lemma insert_by_rating_Forall (P : Q -> Prop) m l :
  P (IMDB_Rating m) -> Forall P (map IMDB_Rating l) ->
  Forall P (map IMDB_Rating (insert_by_rating m l)).
Proof.
  intros Hm. induction l as [|x l IH]; intros Hl; cbn.
  - constructor; [exact Hm | constructor].
  - inversion Hl as [|? ? Hx Hl']; subst.
    destruct (Qltb (IMDB_Rating m) (IMDB_Rating x)); cbn.
    + constructor; [exact Hx | now apply IH].
    + constructor; [exact Hm | exact Hl].
Qed.

Lemma insert_by_rating_sorted m l :
  sorted_desc (map IMDB_Rating l) ->
  sorted_desc (map IMDB_Rating (insert_by_rating m l)).
Proof.
  unfold sorted_desc. induction l as [|x l IH]; intros Hs; cbn.
  - constructor; constructor.
  - cbn in Hs. apply StronglySorted_inv in Hs as [Hs Hx].
    destruct (Qltb (IMDB_Rating m) (IMDB_Rating x)) eqn:E; cbn.
    + apply Qltb_lt in E. constructor; [now apply IH|].
      apply insert_by_rating_Forall; [now apply Qlt_le_weak | exact Hx].
    + apply Qltb_ge in E. constructor.
      * constructor; assumption.
      * constructor; [exact E|].
        eapply Forall_impl; [|exact Hx]. intros y Hy.
        now apply Qle_trans with (IMDB_Rating x).
Qed.

Lemma order_by_rating_desc_sorted l :
  sorted_desc (map IMDB_Rating (order_by_rating_desc l)).
Proof.
  induction l as [|m l IH]; cbn.
  - constructor.
  - now apply insert_by_rating_sorted.
Qed.

Lemma Forall_firstn_keep {A} (P : A -> Prop) k : forall l,
  Forall P l -> Forall P (firstn k l).
Proof.
  induction k as [|k IH]; intros l H; cbn; [constructor|].
  destruct H as [|x l Hx Hl]; constructor; [exact Hx | now apply IH].
Qed.

Lemma sorted_desc_firstn k : forall l,
  sorted_desc l -> sorted_desc (firstn k l).
Proof.
  unfold sorted_desc. induction k as [|k IH]; intros l Hs; cbn.
  - constructor.
  - destruct l as [|x l]; [constructor|].
    apply StronglySorted_inv in Hs as [Hs Hx].
    constructor; [now apply IH|]. now apply Forall_firstn_keep.
Qed.










(* ================================================================== *)
(** * Levenshtein distance as a metric *)
(* ================================================================== *)

Lemma subst_cost_zero x y : subst_cost x y = 0 -> x = y.
Proof.
  unfold subst_cost. destruct (Ascii.eqb_spec x y); [trivial | discriminate].
Qed.

Lemma subst_cost_triangle x y z :
  subst_cost x z <= subst_cost x y + subst_cost y z.
Proof.
  unfold subst_cost.
  destruct (Ascii.eqb_spec x z), (Ascii.eqb_spec x y), (Ascii.eqb_spec y z);
    try lia; congruence.
Qed.

(** A zero entry of the matrix lies on the diagonal and the two
    prefixes agree character by character. *)
Lemma lev_matrix_zero a b i : forall j,
  lev_matrix a b i j = 0 ->
  i = j /\ forall k, k < i -> nth k a zero = nth k b zero.
Proof.
  induction i as [|i IH]; intros j H.
  - rewrite lev_matrix_0_l in H. subst j. split; [reflexivity | lia].
  - destruct j as [|j]; [rewrite lev_matrix_0_r in H; discriminate|].
    rewrite lev_matrix_S in H. unfold min3 in H.
    assert (Hd : lev_matrix a b i j = 0) by lia.
    assert (Hc : subst_cost (nth i a zero) (nth j b zero) = 0) by lia.
    destruct (IH j Hd) as [-> Hpre]. split; [reflexivity|].
    intros k Hk. destruct (Nat.eq_dec k j) as [->|Hne].
    + now apply subst_cost_zero.
    + apply Hpre. lia.
Qed.

(** The matrix entry is at least the difference of the prefix lengths. *)
Lemma lev_matrix_ge_diff a b i : forall j,
  i - j <= lev_matrix a b i j /\ j - i <= lev_matrix a b i j.
Proof.
  induction i as [|i IHi]; intros j.
  - rewrite lev_matrix_0_l. lia.
  - induction j as [|j IHj].
    + rewrite lev_matrix_0_r. lia.
    + rewrite lev_matrix_S. unfold min3.
      pose proof (IHi j). pose proof (IHi (S j)). lia.
Qed.

Lemma lev_matrix_step_down a b i j :
  lev_matrix a b (S i) j <= lev_matrix a b i j + 1.
Proof.
  destruct j as [|j].
  - rewrite !lev_matrix_0_r. lia.
  - rewrite lev_matrix_S. unfold min3. lia.
Qed.

Lemma lev_matrix_step_right a b i j :
  lev_matrix a b i (S j) <= lev_matrix a b i j + 1.
Proof.
  rewrite (lev_matrix_sym a b i (S j)), (lev_matrix_sym a b i j).
  apply lev_matrix_step_down.
Qed.

Lemma lev_matrix_step_diag a b i j :
  lev_matrix a b (S i) (S j)
  <= lev_matrix a b i j + subst_cost (nth i a zero) (nth j b zero).
Proof. rewrite lev_matrix_S. unfold min3. lia. Qed.

(** Triangle inequality on the three matrices, by induction on the
    total length of the three prefixes. *)
Lemma lev_matrix_triangle a b c : forall n i j k,
  i + j + k <= n ->
  lev_matrix a c i k <= lev_matrix a b i j + lev_matrix b c j k.
Proof.
  induction n as [|n IH]; intros i j k Hn.
  - assert (i = 0) by lia. assert (j = 0) by lia. assert (k = 0) by lia.
    subst. cbn. lia.
  - destruct i as [|i].
    { rewrite !lev_matrix_0_l. pose proof (lev_matrix_ge_diff b c j k). lia. }
    destruct k as [|k].
    { rewrite !lev_matrix_0_r. pose proof (lev_matrix_ge_diff a b (S i) j). lia. }
    destruct j as [|j].
    { rewrite lev_matrix_0_r, lev_matrix_0_l.
      pose proof (lev_matrix_le_max a c (S i) (S k)). lia. }
    pose proof (IH (S i) (S j) k ltac:(lia)) as IH1.
    pose proof (IH i (S j) (S k) ltac:(lia)) as IH2.
    pose proof (IH (S i) j (S k) ltac:(lia)) as IH3.
    pose proof (IH (S i) j k ltac:(lia)) as IH4.
    pose proof (IH i j (S k) ltac:(lia)) as IH5.
    pose proof (IH i j k ltac:(lia)) as IH6.
    pose proof (lev_matrix_step_right a c (S i) k) as S1.
    pose proof (lev_matrix_step_down a c i (S k)) as S2.
    pose proof (lev_matrix_step_diag a c i k) as S3.
    pose proof (subst_cost_triangle (nth i a zero) (nth j b zero)
                                    (nth k c zero)) as Hc.
    pose proof (lev_matrix_S a b i j) as Eab.
    pose proof (lev_matrix_S b c j k) as Ebc.
    unfold min3 in Eab, Ebc. lia.
Qed.

(** X1.  The distance is zero exactly for equal strings. *)
Theorem levenshtein_zero_iff_equal :
  forall a b : str, (_levenshtein a b =? 0) = str_eqb a b.
Proof.
  intros a b. destruct (str_eqb_spec a b) as [->|Hne].
  - unfold _levenshtein. now rewrite str_eqb_refl.
  - apply Nat.eqb_neq. intros H. apply Hne.
    rewrite levenshtein_matrix in H. unfold levenshtein_spec in H.
    destruct (lev_matrix_zero a b _ _ H) as [Hlen Hnth].
    apply (nth_ext a b zero zero Hlen). exact Hnth.
Qed.

(** X2.  The distance is at least the difference of the two lengths. *)
Theorem levenshtein_ge_length_difference :
  forall a b : str,
    Nat.max (length a) (length b) - Nat.min (length a) (length b)
    <= _levenshtein a b.
Proof.
  intros a b. rewrite levenshtein_matrix. unfold levenshtein_spec.
  pose proof (lev_matrix_ge_diff a b (length a) (length b)). lia.
Qed.

(** X3.  Triangle inequality: going through a third string never
    shortens the distance. *)
Theorem levenshtein_triangle :
  forall a b c : str,
    _levenshtein a c <= _levenshtein a b + _levenshtein b c.
Proof.
  intros a b c. rewrite !levenshtein_matrix. unfold levenshtein_spec.
  apply (lev_matrix_triangle a b c (length a + length b + length c)). lia.
Qed.

(* ================================================================== *)
(** * Normalisation *)
(* ================================================================== *)

Lemma lower_char_idem c : lower_char (lower_char c) = lower_char c.
Proof. destruct c as [[] [] [] [] [] [] [] []]; reflexivity. Qed.

Lemma is_space_lower_char c : is_space (lower_char c) = is_space c.
Proof. destruct c as [[] [] [] [] [] [] [] []]; reflexivity. Qed.

Lemma lower_idem s : lower (lower s) = lower s.
Proof.
  unfold lower. rewrite map_map. apply map_ext. exact lower_char_idem.
Qed.

Lemma lstrip_lower s : lstrip (lower s) = lower (lstrip s).
Proof.
  induction s as [|c s IH]; [reflexivity|].
  cbn. rewrite is_space_lower_char. now destruct (is_space c).
Qed.

Lemma lower_rev s : lower (rev s) = rev (lower s).
Proof. apply map_rev. Qed.

Lemma rstrip_lower s : rstrip (lower s) = lower (rstrip s).
Proof.
  unfold rstrip. now rewrite <- lower_rev, lstrip_lower, lower_rev.
Qed.

Lemma strip_lower s : strip (lower s) = lower (strip s).
Proof. unfold strip. now rewrite lstrip_lower, rstrip_lower. Qed.

Lemma lstrip_idem s : lstrip (lstrip s) = lstrip s.
Proof.
  induction s as [|c s IH]; [reflexivity|].
  cbn. destruct (is_space c) eqn:E; [exact IH|]. cbn. now rewrite E.
Qed.

Lemma rstrip_idem s : rstrip (rstrip s) = rstrip s.
Proof. unfold rstrip. now rewrite rev_involutive, lstrip_idem. Qed.

Lemma lstrip_snoc s c :
  is_space c = false -> lstrip (s ++ [c]) = lstrip s ++ [c].
Proof.
  intros Hc. induction s as [|d s IH]; cbn.
  - now rewrite Hc.
  - destruct (is_space d); [exact IH | reflexivity].
Qed.

Lemma rstrip_cons c s :
  is_space c = false -> rstrip (c :: s) = c :: rstrip s.
Proof.
  intros Hc. unfold rstrip. cbn [rev].
  now rewrite (lstrip_snoc (rev s) c Hc), rev_app_distr.
Qed.

(** What [lstrip] returns is empty or starts with a non-space. *)
Lemma lstrip_head s :
  lstrip s = [] \/ exists c t, lstrip s = c :: t /\ is_space c = false.
Proof.
  induction s as [|c s IH]; [now left|].
  cbn. destruct (is_space c) eqn:E; [exact IH|].
  right. now exists c, s.
Qed.

Lemma lstrip_rstrip_lstrip s : lstrip (rstrip (lstrip s)) = rstrip (lstrip s).
Proof.
  destruct (lstrip_head s) as [->|(c & t & -> & Hc)]; [reflexivity|].
  rewrite (rstrip_cons c t Hc). cbn. now rewrite Hc.
Qed.

Lemma strip_idem s : strip (strip s) = strip s.
Proof.
  unfold strip. now rewrite lstrip_rstrip_lstrip, rstrip_idem.
Qed.

(** What [strip] returns neither starts nor ends with a space. *)
Lemma strip_ends s :
  (forall c t, strip s = c :: t -> is_space c = false)
  /\ (forall c t, strip s = t ++ [c] -> is_space c = false).
Proof.
  split.
  - intros c t H. unfold strip in H.
    destruct (lstrip_head s) as [E|(c' & t' & E & Hc')]; rewrite E in H.
    + discriminate H.
    + rewrite (rstrip_cons c' t' Hc') in H. now injection H as <- _.
  - intros c t H. unfold strip, rstrip in H.
    apply (f_equal (@rev ascii)) in H.
    rewrite rev_involutive, rev_app_distr in H. cbn in H.
    destruct (lstrip_head (rev (lstrip s))) as [E|(c' & t' & E & Hc')];
      rewrite E in H; [discriminate H|].
    now injection H as <- _.
Qed.

(** X4.  Normalising is idempotent, and a normalised string neither
    starts nor ends with whitespace and is its own lower-casing. *)
Theorem normalize_idempotent_trimmed_lowercase :
  forall text : str,
    _normalize (_normalize text) = _normalize text
    /\ lower (_normalize text) = _normalize text
    /\ starts_with_space (_normalize text) = false
    /\ ends_with_space (_normalize text) = false.
Proof.
  intros text. unfold _normalize, _normalize_opt.
  assert (Hs : strip (lower (strip text)) = lower (strip text))
    by (now rewrite strip_lower, strip_idem).
  split; [now rewrite Hs, lower_idem|].
  split; [apply lower_idem|].
  rewrite <- Hs.
  destruct (strip_ends (lower (strip text))) as [Hhd Hlast].
  split.
  - destruct (strip (lower (strip text))) as [|c t] eqn:E; [reflexivity|].
    exact (Hhd c t eq_refl).
  - unfold ends_with_space.
    destruct (rev (strip (lower (strip text)))) as [|c t] eqn:E; [reflexivity|].
    apply (Hlast c (rev t)).
    rewrite <- (rev_involutive (strip (lower (strip text)))), E. reflexivity.
Qed.

(* ================================================================== *)
(** * The best-title call and its callers' view of it *)
(* ================================================================== *)

(** X5.  Once the cache is loaded the call never consults the store
    again: it returns, leaves the state as it is, and its answer is the
    same whatever the store has become. *)
Theorem find_best_title_after_load_ignores_store :
  forall (st st' : Store) (query : str) (s : State),
    _MOVIES_CACHE_LOADED s = true ->
    _fuzzy_find_best_title st query s = _fuzzy_find_best_title st' query s
    /\ _fuzzy_find_best_title st query s
       = (s, Return (scan_result (_normalize query) (_MOVIES_CACHE s))).
Proof.
  intros st st' query s Hl.
  rewrite !find_best_title_run, !(load_when_loaded _ s Hl). now split.
Qed.

Lemma find_best_title_after_load_ignores_store_witness :
  _fuzzy_find_best_title (Table catalog) (s2l "inceptoin")
                         (mkState [cache_entry inception] true)
  = _fuzzy_find_best_title FileAbsent (s2l "inceptoin")
                           (mkState [cache_entry inception] true)
  /\ _fuzzy_find_best_title (Table catalog) (s2l "inceptoin")
                            (mkState [cache_entry inception] true)
     = (mkState [cache_entry inception] true,
        Return (scan_result (_normalize (s2l "inceptoin"))
                            [cache_entry inception])).
Proof.
  apply (find_best_title_after_load_ignores_store
           (Table catalog) FileAbsent (s2l "inceptoin")
           (mkState [cache_entry inception] true)).
  reflexivity.
Defined.

(** X6.  The call sees its query only through the normalisation: two
    queries that differ in letter case or surrounding whitespace get
    the same answer and leave the same state. *)
Theorem find_best_title_up_to_normalisation :
  forall (st : Store) (q q' : str) (s : State),
    _normalize q = _normalize q' ->
    _fuzzy_find_best_title st q s = _fuzzy_find_best_title st q' s.
Proof.
  intros st q q' s H. now rewrite !find_best_title_run, H.
Qed.

Lemma find_best_title_up_to_normalisation_witness :
  _fuzzy_find_best_title (Table catalog) (s2l "  INCEPTOIN ") initial_state
  = _fuzzy_find_best_title (Table catalog) (s2l "inceptoin") initial_state.
Proof.
  apply (find_best_title_up_to_normalisation
           (Table catalog) (s2l "  INCEPTOIN ") (s2l "inceptoin")
           initial_state).
  reflexivity.
Defined.

Lemma fuzzy_score_empty_title q e :
  title_norm e = [] -> _fuzzy_score q e = 0%Q.
Proof.
  intros H. unfold _fuzzy_score. rewrite H. cbn. now rewrite orb_true_r.
Qed.

Lemma load_state_for rows s :
  state_for rows s ->
  _load_movies_cache (Table rows) s
  = (mkState (map cache_entry rows) true, Return tt).
Proof. intros [-> | ->]; reflexivity. Qed.

(** A title the scan returns over the entries of [rows] is the title of
    one of the rows, and that row's entry scores at least 0.6. *)
Lemma scan_result_in_rows rows q t :
  scan_result q (map cache_entry rows) = Some t ->
  str_empty (_normalize t) = false
  /\ exists m, In m rows /\ Series_Title m = Some t
               /\ (0.6 <= _fuzzy_score q (cache_entry m))%Q.
Proof.
  intros Hr.
  destruct (scan_result_spec q (map cache_entry rows)) as [Hsome _].
  destruct (proj1 (Hsome t) Hr) as (e & Ht & Hge & Hmax).
  apply first_maximum_In, in_map_iff in Hmax as (m & <- & Hin).
  assert (Hne : title_norm (cache_entry m) <> []).
  { intros E. rewrite (fuzzy_score_empty_title _ _ E) in Hge.
    revert Hge. q_const. }
  cbn [cache_entry title_norm title] in Hne, Ht.
  destruct (Series_Title m) as [t'|] eqn:Et'; cbn [coalesce] in Hne, Ht.
  - subst t'. split.
    + destruct (_normalize t); [congruence | reflexivity].
    + exists m. now repeat split.
  - exfalso. now apply Hne.
Qed.

(** X7.  A title the call returns, on a cache that is fresh or was
    loaded from the same table, is the non-NULL title of a row of that
    table, is not blank, and its entry scores at least 0.6. *)
Theorem find_best_title_returns_stored_title :
  forall (rows : list Movie) (query t : str) (s s1 : State),
    state_for rows s ->
    _fuzzy_find_best_title (Table rows) query s = (s1, Return (Some t)) ->
    str_empty (_normalize t) = false
    /\ exists m, In m rows /\ Series_Title m = Some t
                 /\ (0.6 <= _fuzzy_score (_normalize query) (cache_entry m))%Q.
Proof.
  intros rows query t s s1 Hs H.
  rewrite find_best_title_run, (load_state_for rows s Hs) in H.
  cbn [_MOVIES_CACHE] in H. injection H as _ Hr.
  now apply scan_result_in_rows.
Qed.

Lemma find_best_title_returns_stored_title_witness :
  str_empty (_normalize (s2l "Inception")) = false
  /\ exists m, In m catalog /\ Series_Title m = Some (s2l "Inception")
               /\ (0.6 <= _fuzzy_score (_normalize (s2l "inceptoin"))
                                       (cache_entry m))%Q.
Proof.
  apply (find_best_title_returns_stored_title
           catalog (s2l "inceptoin") (s2l "Inception") initial_state
           (mkState (map cache_entry catalog) true)).
  - left. reflexivity.
  - vm_compute. reflexivity.
Defined.

(* ================================================================== *)
(** * Direct matches: [lower(col) LIKE '%norm%'] *)
(* ================================================================== *)

Lemma like_percent q s :
  like ("%"%char :: q) s
  = like q s || match s with [] => false | _ :: s' => like ("%"%char :: q) s' end.
Proof. destruct s; reflexivity. Qed.

Lemma like_underscore q s :
  like ("_"%char :: q) s
  = match s with [] => false | _ :: s' => like q s' end.
Proof. destruct s; reflexivity. Qed.

Lemma like_literal c q s :
  Ascii.eqb c "%"%char = false -> Ascii.eqb c "_"%char = false ->
  like (c :: q) s
  = match s with
    | [] => false
    | d :: s' => Ascii.eqb (sql_lower_char c) (sql_lower_char d) && like q s'
    end.
Proof. intros H1 H2. cbn [like]. rewrite H1, H2. now destruct s. Qed.

(** A lone [%] matches every string. *)
Lemma like_only_percent s : like [ "%"%char ] s = true.
Proof.
  induction s as [|c s IH]; [reflexivity|].
  rewrite like_percent, IH. apply orb_true_r.
Qed.

Lemma like_percent_percent s : like [ "%"%char; "%"%char ] s = true.
Proof. rewrite like_percent, like_only_percent. reflexivity. Qed.

(** A wildcard-free text followed by [%] matches the strings that start
    with the text, up to ASCII case. *)
Lemma like_prefix norm : forall s,
  wildcard_free norm = true ->
  like (norm ++ [ "%"%char ]) s
  = is_prefix (sql_lower norm) (sql_lower s).
Proof.
  induction norm as [|c norm IH]; intros s Hw.
  - cbn [app]. rewrite like_only_percent. reflexivity.
  - cbn [wildcard_free forallb] in Hw.
    apply andb_true_iff in Hw as [Hc Hw].
    apply negb_true_iff, orb_false_iff in Hc as [Hc1 Hc2].
    cbn [app]. rewrite (like_literal _ _ _ Hc1 Hc2).
    destruct s as [|d s]; [reflexivity|].
    cbn [sql_lower map is_prefix]. now rewrite IH.
Qed.

Lemma like_contains norm s :
  wildcard_free norm = true ->
  like (contains_pattern norm) s = contains_nocase norm s.
Proof.
  intros Hw. unfold contains_pattern, contains_nocase.
  change (s2l "%" ++ norm ++ s2l "%")
    with ("%"%char :: (norm ++ [ "%"%char ])).
  induction s as [|d s IH].
  - rewrite like_percent, (like_prefix norm [] Hw). reflexivity.
  - rewrite like_percent, (like_prefix norm (d :: s) Hw), IH. reflexivity.
Qed.

Lemma sql_lower_char_idem c : sql_lower_char (sql_lower_char c) = sql_lower_char c.
Proof. destruct c as [[] [] [] [] [] [] [] []]; reflexivity. Qed.

Lemma sql_lower_idem s : sql_lower (sql_lower s) = sql_lower s.
Proof.
  unfold sql_lower. rewrite map_map. apply map_ext. exact sql_lower_char_idem.
Qed.

(** The direct-match condition as a substring test. *)
Lemma direct_match_condition norm m :
  wildcard_free norm = true ->
  title_like (contains_pattern norm) m = titled_with norm m.
Proof.
  intros Hw. unfold title_like, titled_with.
  destruct (Series_Title m) as [t|]; [|reflexivity].
  rewrite (like_contains _ _ Hw). unfold contains_nocase.
  now rewrite sql_lower_idem.
Qed.

(** X8.  For a query without [%] and [_], the direct-match condition of
    the title tools holds exactly for the rows whose title is not NULL
    and contains the normalised query, compared up to ASCII case. *)
Theorem direct_match_is_substring_test :
  forall (query : str) (m : Movie),
    wildcard_free (_normalize query) = true ->
    title_like (contains_pattern (_normalize query)) m
    = match Series_Title m with
      | Some t => contains_nocase (_normalize query) t
      | None => false
      end.
Proof.
  intros query m Hw. now rewrite (direct_match_condition _ m Hw).
Qed.

Lemma direct_match_is_substring_test_witness :
  title_like (contains_pattern (_normalize (s2l " DEPART"))) departed
  = match Series_Title departed with
    | Some t => contains_nocase (_normalize (s2l " DEPART")) t
    | None => false
    end.
Proof.
  apply (direct_match_is_substring_test (s2l " DEPART") departed).
  reflexivity.
Defined.

(* ================================================================== *)
(** * The title-resolving tools *)
(* ================================================================== *)

Lemma load_table_returns rows s :
  exists s1, _load_movies_cache (Table rows) s = (s1, Return tt).
Proof.
  unfold _load_movies_cache. destruct (_MOVIES_CACHE_LOADED s); eexists; reflexivity.
Qed.

Lemma find_first_accepting {A} (f : A -> bool) pre x post :
  forallb (fun y => negb (f y)) pre = true -> f x = true ->
  find f (pre ++ x :: post) = Some x.
Proof.
  intros Hpre Hx. induction pre as [|y pre IH]; cbn.
  - now rewrite Hx.
  - cbn in Hpre. apply andb_true_iff in Hpre as [Hy Hpre].
    apply negb_true_iff in Hy. rewrite Hy. now apply IH.
Qed.

Lemma find_ext_eq {A} (f g : A -> bool) l :
  (forall x, f x = g x) -> find f l = find g l.
Proof.
  intros H. induction l as [|x l IH]; [reflexivity|].
  cbn. now rewrite H, IH.
Qed.

Lemma title_is_true t m : title_is t m = true <-> Series_Title m = Some t.
Proof.
  unfold title_is. destruct (Series_Title m) as [t'|].
  - destruct (str_eqb_spec t' t); split; congruence.
  - split; discriminate.
Qed.

Lemma str_empty_normalize_nonempty t :
  str_empty (_normalize t) = false -> str_empty t = false.
Proof. destruct t; [discriminate | reflexivity]. Qed.

(** The description tool after a direct miss, in terms of the scan. *)
Lemma movie_info_after_miss rows title s :
  state_for rows s ->
  find (title_like (contains_pattern (_normalize title))) rows = None ->
  kaggle_movie_info (Table rows) title s
  = (mkState (map cache_entry rows) true,
     Return match scan_result (_normalize title) (map cache_entry rows) with
            | None => InfoNotFound title
            | Some t =>
                match find (title_is t) rows with
                | Some row => InfoFound (info_card row)
                | None => InfoNotFound title
                end
            end).
Proof.
  intros Hs Hmiss. unfold kaggle_movie_info, fetch_first.
  cbn [_get_connection fetch_table]. rewrite Hmiss.
  rewrite find_best_title_run, (load_state_for rows s Hs).
  cbn [_MOVIES_CACHE].
  destruct (scan_result (_normalize title) (map cache_entry rows)) as [t|] eqn:Er;
    [|reflexivity].
  destruct (scan_result_in_rows _ _ _ Er) as [Hne _].
  rewrite (str_empty_normalize_nonempty t Hne).
  now destruct (find (title_is t) rows).
Qed.

(** X9.  Outcome of the description tool by store: the unavailable
    message when the file is absent, the SQLite error when the query
    fails, each with the state untouched; on a readable table the tool
    always returns, with a description or its not-found sentence, and
    the state is either untouched or the one the load step leaves. *)
Theorem movie_info_outcome_by_store :
  forall (st : Store) (title : str) (s : State),
    match st with
    | FileAbsent =>
        kaggle_movie_info st title s = (s, Return InfoUnavailable)
    | QueryFails =>
        kaggle_movie_info st title s = (s, Raise OperationalError)
    | Table rows =>
        exists s1 r,
          kaggle_movie_info st title s = (s1, Return r)
          /\ (s1 = s \/ s1 = fst (_load_movies_cache st s))
          /\ (r = InfoNotFound title \/ exists c, r = InfoFound c)
    end.
Proof.
  intros st title s. destruct st as [| |rows]; [reflexivity | reflexivity |].
  unfold kaggle_movie_info, fetch_first. cbn [_get_connection fetch_table].
  destruct (find (title_like (contains_pattern (_normalize title))) rows)
    as [row|].
  - exists s, (InfoFound (info_card row)). split; [reflexivity|].
    split; [now left | right; now eexists].
  - rewrite find_best_title_run.
    destruct (load_table_returns rows s) as [s1 E]. rewrite E. cbn [fst].
    destruct (scan_result (_normalize title) (_MOVIES_CACHE s1)) as [t|].
    + destruct (str_empty t).
      * exists s1, (InfoNotFound title). split; [reflexivity|].
        split; [now right | now left].
      * destruct (find (title_is t) rows) as [row|].
        -- exists s1, (InfoFound (info_card row)). split; [reflexivity|].
           split; [now right | right; now eexists].
        -- exists s1, (InfoNotFound title). split; [reflexivity|].
           split; [now right | now left].
    + exists s1, (InfoNotFound title). split; [reflexivity|].
      split; [now right | now left].
Qed.

(** X10.  Direct hit: for a query without [%] and [_], if a row's title
    contains the normalised query (up to ASCII case) and no earlier row
    does, the description tool answers with that row and does not touch
    the cache. *)
Theorem movie_info_direct_hit_first_containing_row :
  forall (pre post : list Movie) (row : Movie) (title : str) (s : State),
    wildcard_free (_normalize title) = true ->
    forallb (fun m => negb (titled_with (_normalize title) m)) pre = true ->
    titled_with (_normalize title) row = true ->
    kaggle_movie_info (Table (pre ++ row :: post)) title s
    = (s, Return (InfoFound (info_card row))).
Proof.
  intros pre post row title s Hw Hpre Hrow.
  unfold kaggle_movie_info, fetch_first. cbn [_get_connection fetch_table].
  rewrite (find_ext_eq _ (titled_with (_normalize title)) _
             (fun m => direct_match_condition (_normalize title) m Hw)).
  now rewrite (find_first_accepting _ pre row post Hpre Hrow).
Qed.

Lemma movie_info_direct_hit_first_containing_row_witness :
  kaggle_movie_info (Table ([titanic; memento] ++ inception :: [departed]))
                    (s2l " CEPT ") initial_state
  = (initial_state, Return (InfoFound (info_card inception))).
Proof.
  apply (movie_info_direct_hit_first_containing_row
           [titanic; memento] [departed] inception (s2l " CEPT ")
           initial_state); reflexivity.
Defined.

Lemma find_exists {A} (f : A -> bool) l x :
  In x l -> f x = true -> exists y, find f l = Some y /\ f y = true.
Proof.
  intros Hin Hx. destruct (find f l) as [y|] eqn:E.
  - exists y. split; [reflexivity|]. now apply find_some in E.
  - exfalso. pose proof (find_none f l E x Hin). congruence.
Qed.

(** X11.  Fuzzy fallback: after a direct miss, on a cache that is fresh
    or was loaded from the same table, the description tool follows the
    best-title call: its not-found sentence when that call finds
    nothing, and otherwise the first row whose title is exactly the
    title found; the second lookup never misses. *)
Theorem movie_info_fallback_follows_best_title :
  forall (rows : list Movie) (title : str) (s : State),
    state_for rows s ->
    find (title_like (contains_pattern (_normalize title))) rows = None ->
    match snd (_fuzzy_find_best_title (Table rows) title s) with
    | Return None =>
        kaggle_movie_info (Table rows) title s
        = (mkState (map cache_entry rows) true, Return (InfoNotFound title))
    | Return (Some t) =>
        exists row,
          find (title_is t) rows = Some row
          /\ Series_Title row = Some t
          /\ kaggle_movie_info (Table rows) title s
             = (mkState (map cache_entry rows) true,
                Return (InfoFound (info_card row)))
    | Raise _ => False
    end.
Proof.
  intros rows title s Hs Hmiss.
  rewrite (movie_info_after_miss rows title s Hs Hmiss).
  rewrite find_best_title_run, (load_state_for rows s Hs).
  cbn [snd _MOVIES_CACHE].
  destruct (scan_result (_normalize title) (map cache_entry rows)) as [t|] eqn:Er;
    [|reflexivity].
  destruct (scan_result_in_rows _ _ _ Er) as (_ & m & Hin & Hm & _).
  destruct (find_exists (title_is t) rows m Hin (proj2 (title_is_true t m) Hm))
    as (row & Hf & Hrow).
  exists row. rewrite Hf. split; [reflexivity|].
  split; [now apply title_is_true | reflexivity].
Qed.

Lemma movie_info_fallback_follows_best_title_witness :
  exists row,
    find (title_is (s2l "Inception")) catalog = Some row
    /\ Series_Title row = Some (s2l "Inception")
    /\ kaggle_movie_info (Table catalog) (s2l "inceptoin") initial_state
       = (mkState (map cache_entry catalog) true,
          Return (InfoFound (info_card row))).
Proof.
  apply (movie_info_fallback_follows_best_title
           catalog (s2l "inceptoin") initial_state).
  - left. reflexivity.
  - reflexivity.
Defined.

Lemma title_like_blank m : title_like (contains_pattern []) m = has_title m.
Proof.
  unfold title_like, has_title. destruct (Series_Title m); [|reflexivity].
  apply like_percent_percent.
Qed.

(** X12.  Blank title: a title that is empty after normalisation
    matches every row with a non-NULL title, so the description tool
    answers with the first such row; when no row has a title it runs
    the load step and answers with its not-found sentence. *)
Theorem movie_info_blank_title_first_titled_row :
  forall (rows : list Movie) (title : str) (s : State),
    _normalize title = [] ->
    kaggle_movie_info (Table rows) title s
    = match find has_title rows with
      | Some row => (s, Return (InfoFound (info_card row)))
      | None => (fst (_load_movies_cache (Table rows) s),
                 Return (InfoNotFound title))
      end.
Proof.
  intros rows title s Hq.
  unfold kaggle_movie_info, fetch_first. cbn [_get_connection fetch_table].
  rewrite Hq, (find_ext_eq _ has_title rows title_like_blank).
  destruct (find has_title rows) as [row|]; [reflexivity|].
  rewrite find_best_title_run, Hq.
  destruct (load_table_returns rows s) as [s1 E]. rewrite E. cbn [fst].
  unfold scan_result. now rewrite scan_empty_query.
Qed.

Lemma movie_info_blank_title_first_titled_row_witness :
  kaggle_movie_info (Table catalog) (s2l "   ") initial_state
  = (initial_state, Return (InfoFound (info_card titanic))).
Proof.
  apply (movie_info_blank_title_first_titled_row
           catalog (s2l "   ") initial_state).
  reflexivity.
Defined.

(** X13.  The rating tool resolves a title exactly as the description
    tool does: same final state, same failure, and otherwise the
    sentence for the same row (unavailable, not found, or the title and
    rating of the row described). *)
Theorem movie_rating_agrees_with_movie_info :
  forall (st : Store) (title : str) (s : State),
    kaggle_movie_rating st title s
    = (fst (kaggle_movie_info st title s),
       rating_outcome (snd (kaggle_movie_info st title s))).
Proof.
  intros st title s. unfold kaggle_movie_rating, kaggle_movie_info.
  destruct (_get_connection st) as [conn|]; [|reflexivity].
  destruct (fetch_first conn (title_like (contains_pattern (_normalize title))))
    as [[row|]|e]; [reflexivity | | reflexivity].
  destruct (_fuzzy_find_best_title st title s) as [s1 [[t|]|e]];
    [| reflexivity | reflexivity].
  destruct (str_empty t); [reflexivity|].
  now destruct (fetch_first conn (title_is t)) as [[row|]|e].
Qed.

(* ================================================================== *)
(** * Text helpers *)
(* ================================================================== *)

Lemma text_eqb_spec a : forall b, reflect (a = b) (text_eqb a b).
Proof.
  induction a as [|x a IH]; intros [|y b]; cbn;
    try (constructor; congruence).
  destruct (N.eqb_spec x y) as [->|Hxy]; cbn.
  - destruct (IH b) as [->|Hab]; constructor; congruence.
  - constructor; congruence.
Qed.

Lemma text_eqb_refl a : text_eqb a a = true.
Proof. now destruct (text_eqb_spec a a). Qed.

Lemma text_mem_In x l : text_mem x l = true <-> In x l.
Proof.
  unfold text_mem. rewrite existsb_exists. split.
  - intros [y [Hy E]]. destruct (text_eqb_spec x y); congruence.
  - intros H. exists x. split; [exact H | apply text_eqb_refl].
Qed.

Lemma text_prefix_iff p : forall s,
  text_prefix p s = true <-> exists b, s = p ++ b.
Proof.
  induction p as [|x p IH]; intros s; cbn.
  - split; [intros _; now exists s | reflexivity].
  - destruct s as [|y s].
    + split; [discriminate | intros [b Hb]; discriminate Hb].
    + rewrite andb_true_iff, N.eqb_eq, IH. split.
      * intros [-> [b ->]]. now exists b.
      * intros [b Hb]. injection Hb as -> ->. split; [reflexivity | now exists b].
Qed.

Lemma text_in_iff p s :
  text_in p s = true <-> exists a b, s = a ++ p ++ b.
Proof.
  induction s as [|y s IH]; cbn.
  - rewrite orb_false_r, text_prefix_iff. split.
    + intros [b Hb]. now exists [], b.
    + intros (a & b & H). destruct a; [now exists b|discriminate H].
  - rewrite orb_true_iff, text_prefix_iff, IH. split.
    + intros [[b Hb] | (a & b & ->)].
      * now exists [], b.
      * now exists (y :: a), b.
    + intros (a & b & H). destruct a as [|x a].
      * left. now exists b.
      * right. injection H as _ ->. now exists a, b.
Qed.

Lemma text_in_self p a b : text_in p (a ++ p ++ b) = true.
Proof. apply text_in_iff. now exists a, b. Qed.

Lemma text_in_trans x y z :
  text_in x y = true -> text_in y z = true -> text_in x z = true.
Proof.
  rewrite !text_in_iff. intros (a & b & ->) (c & d & ->).
  exists (c ++ a), (b ++ d). now rewrite <- !app_assoc.
Qed.

Lemma text_in_app_l p a s : text_in p s = true -> text_in p (a ++ s) = true.
Proof.
  rewrite !text_in_iff. intros (c & d & ->).
  exists (a ++ c), d. now rewrite <- app_assoc.
Qed.

Lemma text_in_app_r p s b : text_in p s = true -> text_in p (s ++ b) = true.
Proof.
  rewrite !text_in_iff. intros (c & d & ->).
  exists c, (d ++ b). now rewrite <- !app_assoc.
Qed.

Lemma text_in_join sep x l :
  In x l -> text_in x (text_join sep l) = true.
Proof.
  induction l as [|y l IH]; [intros []|].
  intros [->|Hin].
  - destruct l as [|z l]; cbn [text_join].
    + apply text_in_iff. exists [], []. now rewrite app_nil_r.
    + apply (text_in_self x []).
  - destruct l as [|z l]; [destruct Hin|]. cbn [text_join].
    apply text_in_app_l, text_in_app_l. now apply IH.
Qed.

Lemma last_n_short {A} n (l : list A) : length l <= n -> last_n n l = l.
Proof.
  intros H. unfold last_n. replace (length l - n) with 0 by lia. reflexivity.
Qed.

Lemma last_n_length {A} n (l : list A) :
  length (last_n n l) = Nat.min n (length l).
Proof. unfold last_n. rewrite length_skipn. lia. Qed.

Lemma last_n_snoc {A} n (l : list A) x :
  0 < n -> exists pre, last_n n (l ++ [x]) = pre ++ [x].
Proof.
  intros Hn. unfold last_n. rewrite length_app. cbn [length].
  exists (skipn (length l + 1 - n) l).
  rewrite skipn_app.
  replace (length l + 1 - n - length l) with 0 by lia. reflexivity.
Qed.

(* ================================================================== *)
(** * The conversation memory *)
(* ================================================================== *)

Lemma memory_add_history role content m :
  role_kept role = true ->
  history (memory_add role content m)
  = last_n MAX_HISTORY (history m ++ [mkMessage role content]).
Proof.
  intros Hr. unfold memory_add. rewrite Hr. cbn [negb _save history].
  destruct (Nat.ltb_spec MAX_HISTORY
              (length (history m ++ [mkMessage role content]))) as [H|H];
    [reflexivity|].
  now rewrite last_n_short.
Qed.

(** X14.  [Memory.add] ignores every role other than user and
    assistant, file included.  For those two roles the new history is
    the last [MAX_HISTORY] messages of the old history followed by the
    new message: it ends with the new message, never holds more than
    [MAX_HISTORY] messages, the profile is untouched and the file holds
    the new history. *)
Theorem memory_add_bounded_history :
  forall (role content : text) (m : Memory),
    if role_kept role then
      history (memory_add role content m)
      = last_n MAX_HISTORY (history m ++ [mkMessage role content])
      /\ length (history (memory_add role content m))
         = Nat.min MAX_HISTORY (length (history m) + 1)
      /\ length (history (memory_add role content m)) <= MAX_HISTORY
      /\ (exists pre, history (memory_add role content m)
                      = pre ++ [mkMessage role content])
      /\ profile (memory_add role content m) = profile m
      /\ saved (memory_add role content m)
         = Some (profile m, history (memory_add role content m))
    else memory_add role content m = m.
Proof.
  intros role content m. destruct (role_kept role) eqn:Hr.
  - pose proof (memory_add_history role content m Hr) as Hh.
    assert (Hlen : length (history (memory_add role content m))
                   = Nat.min MAX_HISTORY (length (history m) + 1)).
    { rewrite Hh, last_n_length, length_app. reflexivity. }
    split; [exact Hh|]. split; [exact Hlen|]. split; [lia|].
    split.
    + rewrite Hh. apply last_n_snoc. unfold MAX_HISTORY. lia.
    + unfold memory_add. rewrite Hr. cbn. now split.
  - unfold memory_add. now rewrite Hr.
Qed.

(** X15.  [Memory.add] keeps the invariant that every stored message
    has the role user or assistant. *)
Theorem memory_add_keeps_roles :
  forall (r c : text) (m : Memory),
    Forall (fun msg => role_kept (role msg) = true) (history m) ->
    Forall (fun msg => role_kept (role msg) = true)
           (history (memory_add r c m)).
Proof.
  intros r c m Hinv. destruct (role_kept r) eqn:Hr.
  - rewrite (memory_add_history r c m Hr). unfold last_n.
    apply Forall_forall. intros msg Hin.
    assert (Hall : Forall (fun msg => role_kept (role msg) = true)
                          (history m ++ [mkMessage r c])).
    { apply Forall_app. split; [exact Hinv|]. constructor; [exact Hr | constructor]. }
    rewrite Forall_forall in Hall. apply Hall.
    rewrite <- (firstn_skipn (length (history m ++ [mkMessage r c]) - MAX_HISTORY)).
    apply in_or_app. now right.
  - unfold memory_add. now rewrite Hr.
Qed.

Lemma memory_add_keeps_roles_witness :
  Forall (fun msg => role_kept (role msg) = true)
         (history (memory_add (utf8 "assistant") (utf8 "hi")
                     (mkMemory [mkMessage (utf8 "user") (utf8 "hello")]
                               (mkProfile None [] [] [] []) None))).
Proof.
  apply (memory_add_keeps_roles (utf8 "assistant") (utf8 "hi")
           (mkMemory [mkMessage (utf8 "user") (utf8 "hello")]
                     (mkProfile None [] [] [] []) None)).
  constructor; [reflexivity | constructor].
Defined.

Lemma Forall_last_n {A} (P : A -> Prop) n (l : list A) :
  Forall P l -> Forall P (last_n n l).
Proof.
  intros H. unfold last_n. rewrite Forall_forall in *. intros x Hx.
  apply H. rewrite <- (firstn_skipn (length l - n) l).
  apply in_or_app. now right.
Qed.

Lemma filter_all {A} (f : A -> bool) l :
  Forall (fun x => f x = true) l -> filter f l = l.
Proof.
  induction 1 as [|x l Hx _ IH]; [reflexivity|].
  cbn. now rewrite Hx, IH.
Qed.

Lemma rebuild_messages l :
  map (fun msg => mkMessage (role msg) (content msg)) l = l.
Proof.
  induction l as [|[r c] l IH]; [reflexivity|]. cbn. now rewrite IH.
Qed.

(* ================================================================== *)
(** * The messages sent to the model *)
(* ================================================================== *)

(** X16.  On a history that holds only user and assistant messages (as
    [Memory.add] keeps it), the message list is the system message,
    then the last twelve messages of the history in order, then the
    current user message: at most fourteen messages. *)
Theorem build_messages_window :
  forall (SYSTEM_PROMPT : text) (m : Memory) (user_input : text),
    Forall (fun msg => role_kept (role msg) = true) (history m) ->
    build_messages SYSTEM_PROMPT m user_input
    = mkMessage (utf8 "system") (SYSTEM_PROMPT ++ profile_block m)
      :: last_n 12 (history m) ++ [mkMessage (utf8 "user") user_input]
    /\ length (build_messages SYSTEM_PROMPT m user_input)
       = Nat.min 12 (length (history m)) + 2.
Proof.
  intros SP m u Hinv.
  assert (E : build_messages SP m u
              = mkMessage (utf8 "system") (SP ++ profile_block m)
                :: last_n 12 (history m) ++ [mkMessage (utf8 "user") u]).
  { unfold build_messages.
    rewrite (filter_all _ _ (Forall_last_n _ 12 _ Hinv)), rebuild_messages.
    reflexivity. }
  split; [exact E|].
  rewrite E. cbn [length]. rewrite length_app, last_n_length. cbn [length]. lia.
Qed.

Lemma build_messages_window_witness :
  build_messages (utf8 "You are a film assistant.")
    (mkMemory [mkMessage (utf8 "user") (utf8 "hello");
               mkMessage (utf8 "assistant") (utf8 "hi")]
              (mkProfile None [] [] [] []) None)
    (utf8 "top sci-fi?")
  = mkMessage (utf8 "system")
              (utf8 "You are a film assistant."
               ++ profile_block
                    (mkMemory [mkMessage (utf8 "user") (utf8 "hello");
                               mkMessage (utf8 "assistant") (utf8 "hi")]
                              (mkProfile None [] [] [] []) None))
    :: last_n 12 [mkMessage (utf8 "user") (utf8 "hello");
                  mkMessage (utf8 "assistant") (utf8 "hi")]
       ++ [mkMessage (utf8 "user") (utf8 "top sci-fi?")]
  /\ length (build_messages (utf8 "You are a film assistant.")
               (mkMemory [mkMessage (utf8 "user") (utf8 "hello");
                          mkMessage (utf8 "assistant") (utf8 "hi")]
                         (mkProfile None [] [] [] []) None)
               (utf8 "top sci-fi?"))
     = Nat.min 12 (length [mkMessage (utf8 "user") (utf8 "hello");
                           mkMessage (utf8 "assistant") (utf8 "hi")]) + 2.
Proof.
  apply (build_messages_window (utf8 "You are a film assistant.")
           (mkMemory [mkMessage (utf8 "user") (utf8 "hello");
                      mkMessage (utf8 "assistant") (utf8 "hi")]
                     (mkProfile None [] [] [] []) None)
           (utf8 "top sci-fi?")).
  repeat constructor.
Defined.

Lemma filter_snoc {A} (f : A -> bool) l x :
  f x = true -> filter f (l ++ [x]) = filter f l ++ [x].
Proof. intros H. rewrite filter_app. cbn. now rewrite H. Qed.

(** X17.  The agent stores the user's message with [Memory.add] and
    then builds the messages from the same input (the profile may have
    been updated in between): the message list then ends with the
    user's message twice, once from the history window and once as the
    current message. *)
Theorem build_messages_repeats_stored_input :
  forall (SYSTEM_PROMPT user_input : text) (m : Memory) (p : Profile)
         (sv : option (Profile * list Message)),
    exists pre,
      build_messages SYSTEM_PROMPT
        (mkMemory (history (memory_add (utf8 "user") user_input m)) p sv)
        user_input
      = pre ++ [mkMessage (utf8 "user") user_input;
                mkMessage (utf8 "user") user_input].
Proof.
  intros SP u m p sv. unfold build_messages. cbn [history].
  rewrite (memory_add_history (utf8 "user") u m eq_refl).
  destruct (last_n_snoc MAX_HISTORY (history m) (mkMessage (utf8 "user") u))
    as [h1 ->]; [unfold MAX_HISTORY; lia|].
  destruct (last_n_snoc 12 h1 (mkMessage (utf8 "user") u)) as [h2 ->]; [lia|].
  rewrite (filter_snoc _ h2 (mkMessage (utf8 "user") u) eq_refl).
  rewrite map_app. cbn [map role content].
  exists (mkMessage (utf8 "system") (SP ++ profile_block (mkMemory
            (history (memory_add (utf8 "user") u m)) p sv))
          :: map (fun msg => mkMessage (role msg) (content msg))
                 (filter (fun msg => role_kept (role msg)) h2)).
  cbn [app]. now rewrite <- app_assoc.
Qed.

(* ================================================================== *)
(** * The profile lists *)
(* ================================================================== *)

Lemma profile_get_set key arr p : profile_get key (profile_set key arr p) = arr.
Proof. now destruct key. Qed.

Lemma profile_set_set key arr arr' p :
  profile_set key arr (profile_set key arr' p) = profile_set key arr p.
Proof. now destruct key. Qed.

Lemma profile_get_set_other key key' arr p :
  key' = key \/ profile_get key' (profile_set key arr p) = profile_get key' p.
Proof. destruct key, key'; (now left) || (now right). Qed.

(** X18.  [_append_unique] keeps the entries of the list in order and
    adds at most the new value at the end; afterwards the value is in
    the list up to letter case; the other lists, the name, the history
    and the file are untouched; and a second call with the same value
    changes nothing.  This holds for every lower-casing function. *)
Theorem append_unique_idempotent_extension :
  forall (lower : text -> text) (key : ListKey) (value : text) (m : Memory),
    (profile_get key (profile (_append_unique lower key value m))
     = profile_get key (profile m)
     \/ profile_get key (profile (_append_unique lower key value m))
        = profile_get key (profile m) ++ [value])
    /\ text_mem (lower value)
         (map lower
              (profile_get key (profile (_append_unique lower key value m))))
       = true
    /\ (forall key',
          key' = key
          \/ profile_get key' (profile (_append_unique lower key value m))
             = profile_get key' (profile m))
    /\ name (profile (_append_unique lower key value m)) = name (profile m)
    /\ history (_append_unique lower key value m) = history m
    /\ saved (_append_unique lower key value m) = saved m
    /\ _append_unique lower key value (_append_unique lower key value m)
       = _append_unique lower key value m.
Proof.
  intros lower key value m.
  assert (Hmem : forall arr,
            text_mem (lower value) (map lower (arr ++ [value])) = true).
  { intros arr. apply text_mem_In. rewrite map_app. apply in_or_app.
    right. now left. }
  unfold _append_unique. cbn [profile history saved].
  rewrite !profile_get_set.
  destruct (text_mem (lower value) (map lower (profile_get key (profile m))))
    eqn:E; cbn [negb].
  - split; [now left|]. split; [exact E|].
    split; [intros key'; apply profile_get_set_other|].
    split; [now destruct key|]. split; [reflexivity|]. split; [reflexivity|].
    rewrite E. cbn [negb]. now rewrite profile_set_set.
  - split; [now right|]. split; [apply Hmem|].
    split; [intros key'; apply profile_get_set_other|].
    split; [now destruct key|]. split; [reflexivity|]. split; [reflexivity|].
    rewrite Hmem. cbn [negb]. now rewrite profile_set_set.
Qed.

(** X19.  [_append_unique] keeps a list free of duplicates up to letter
    case, for every lower-casing function. *)
Theorem append_unique_keeps_distinct :
  forall (lower : text -> text) (key : ListKey) (value : text) (m : Memory),
    NoDup (map lower (profile_get key (profile m))) ->
    NoDup (map lower
             (profile_get key (profile (_append_unique lower key value m)))).
Proof.
  intros lower key value m Hnd.
  unfold _append_unique. cbn [profile]. rewrite profile_get_set.
  destruct (text_mem (lower value) (map lower (profile_get key (profile m))))
    eqn:E; cbn [negb]; [exact Hnd|].
  rewrite map_app. cbn [map].
  assert (Hnin : ~ In (lower value) (map lower (profile_get key (profile m)))).
  { intros Hin. apply text_mem_In in Hin. congruence. }
  apply (Permutation.Permutation_NoDup
           (l := lower value :: map lower (profile_get key (profile m)))).
  - apply Permutation.Permutation_cons_append.
  - now constructor.
Qed.

Lemma append_unique_keeps_distinct_witness :
  NoDup (map sample_lower
           (profile_get Actors
              (profile (_append_unique sample_lower Actors (utf8 "джеки чан")
                          (mkMemory []
                             (mkProfile None [] [utf8 "Джеки Чан"] [] [])
                             None))))).
Proof.
  apply (append_unique_keeps_distinct sample_lower Actors (utf8 "джеки чан")
           (mkMemory [] (mkProfile None [] [utf8 "Джеки Чан"] [] []) None)).
  cbn. constructor; [intros [] | constructor].
Defined.

(* ================================================================== *)
(** * Answers from memory *)
(* ================================================================== *)

Lemma preference_part_nil label items :
  preference_part label items = [] -> items = [].
Proof. destruct items; [reflexivity | discriminate]. Qed.

Lemma preference_part_In label items x :
  In x items ->
  exists part, In part (preference_part label items)
               /\ text_in x part = true.
Proof.
  intros Hin. destruct items as [|y items]; [destruct Hin|].
  eexists. split; [now left|].
  apply text_in_app_l. now apply text_in_join.
Qed.

(** X20.  [get_preferences_text] returns nothing exactly when the four
    lists are empty; otherwise it returns a non-empty text in which
    every stored genre, actor, director and film occurs. *)
Theorem preferences_text_mentions_every_item :
  forall m : Memory,
    match get_preferences_text m with
    | None =>
        genres (profile m) = [] /\ actors (profile m) = []
        /\ directors (profile m) = [] /\ movies (profile m) = []
    | Some t =>
        text_empty t = false
        /\ 0 < length (genres (profile m) ++ actors (profile m)
                       ++ directors (profile m) ++ movies (profile m))
        /\ Forall (fun x => text_in x t = true)
                  (genres (profile m) ++ actors (profile m)
                   ++ directors (profile m) ++ movies (profile m))
    end.
Proof.
  intros m. unfold get_preferences_text.
  set (pg := preference_part (utf8 "любимые жанры: ") (genres (profile m))).
  set (pa := preference_part (utf8 "любимые актёры: ") (actors (profile m))).
  set (pd := preference_part (utf8 "любимые режиссёры: ")
                             (directors (profile m))).
  set (pm := preference_part (utf8 "любимые фильмы: ") (movies (profile m))).
  destruct (pg ++ pa ++ pd ++ pm) as [|part result] eqn:E.
  - apply app_eq_nil in E as [Eg E]. apply app_eq_nil in E as [Ea E].
    apply app_eq_nil in E as [Ed Em].
    repeat split; eapply preference_part_nil; eassumption.
  - split; [reflexivity|].
    assert (Hall : Forall (fun x => text_in x
                     (utf8 "У пользователя "
                      ++ text_join (utf8 "; ") (part :: result) ++ utf8 ".")
                     = true)
                     (genres (profile m) ++ actors (profile m)
                      ++ directors (profile m) ++ movies (profile m))).
    { apply Forall_forall. intros x Hx.
      assert (Hpart : exists q, In q (pg ++ pa ++ pd ++ pm)
                                /\ text_in x q = true).
      { apply in_app_or in Hx as [Hx|Hx];
          [|apply in_app_or in Hx as [Hx|Hx];
            [|apply in_app_or in Hx as [Hx|Hx]]].
        - destruct (preference_part_In (utf8 "любимые жанры: ") _ _ Hx)
            as (q & Hq & Hin).
          exists q. split; [|exact Hin]. apply in_or_app. now left.
        - destruct (preference_part_In (utf8 "любимые актёры: ") _ _ Hx)
            as (q & Hq & Hin).
          exists q. split; [|exact Hin].
          apply in_or_app. right. apply in_or_app. now left.
        - destruct (preference_part_In (utf8 "любимые режиссёры: ") _ _ Hx)
            as (q & Hq & Hin).
          exists q. split; [|exact Hin].
          apply in_or_app. right. apply in_or_app. right.
          apply in_or_app. now left.
        - destruct (preference_part_In (utf8 "любимые фильмы: ") _ _ Hx)
            as (q & Hq & Hin).
          exists q. split; [|exact Hin].
          apply in_or_app. right. apply in_or_app. right.
          apply in_or_app. now right. }
      destruct Hpart as (q & Hq & Hin). rewrite E in Hq.
      apply text_in_app_l, text_in_app_r.
      apply (text_in_trans x q); [exact Hin|].
      now apply text_in_join. }
    split; [|exact Hall].
    destruct (genres (profile m) ++ actors (profile m)
              ++ directors (profile m) ++ movies (profile m)) eqn:El;
      [|cbn; lia].
    exfalso.
    apply app_eq_nil in El as [Eg El]. apply app_eq_nil in El as [Ea El].
    apply app_eq_nil in El as [Ed Em].
    subst pg pa pd pm. rewrite Eg, Ea, Ed, Em in E. discriminate E.
Qed.

(** X21.  [answer_from_memory_if_applicable] returns nothing exactly
    when none of its three questions occurs in the lower-cased text,
    and an answer it returns is never the empty text; this holds for
    every lower-casing function. *)
Theorem answer_from_memory_none_or_nonempty :
  forall (lower : text -> text) (user_text : text) (memory : Memory),
    match answer_from_memory_if_applicable lower user_text memory with
    | None =>
        text_in (utf8 "как меня зовут") (lower user_text) = false
        /\ text_in (utf8 "какие жанры я люблю") (lower user_text) = false
        /\ text_in (utf8 "что я люблю") (lower user_text) = false
    | Some answer =>
        text_empty answer = false
        /\ (text_in (utf8 "как меня зовут") (lower user_text)
            || text_in (utf8 "какие жанры я люблю") (lower user_text)
            || text_in (utf8 "что я люблю") (lower user_text)) = true
    end.
Proof.
  intros lower user_text memory. unfold answer_from_memory_if_applicable.
  destruct (text_in (utf8 "как меня зовут") (lower user_text)).
  - destruct (user_name memory) as [[|c n]|]; split; reflexivity.
  - destruct (text_in (utf8 "какие жанры я люблю") (lower user_text)).
    + destruct (genres (profile memory)); split; reflexivity.
    + destruct (text_in (utf8 "что я люблю") (lower user_text)).
      * destruct (get_preferences_text memory) as [[|c p]|]; split; reflexivity.
      * now repeat split.
Qed.

(* ================================================================== *)
(** * The final answer *)
(* ================================================================== *)

Lemma formal_explanation_marked :
  text_in (utf8 "Пояснение:") formal_explanation = true.
Proof. vm_compute. reflexivity. Qed.

Lemma empty_answer_marked :
  text_in (utf8 "Пояснение:") empty_answer = true.
Proof. vm_compute. reflexivity. Qed.

(** X22.  [format_final_answer] never returns the empty text, and its
    result always carries the explanation marker: the result contains
    «Пояснение:» as written, or its lower-casing contains «пояснение:».
    A text that is not blank is kept: stripped, it is the beginning of
    the result.  This holds for every lower-casing function. *)
Theorem format_final_answer_always_explains :
  forall (lower : text -> text) (raw : option text),
    text_empty (format_final_answer lower raw) = false
    /\ (text_in (utf8 "Пояснение:") (format_final_answer lower raw)
        || text_in (utf8 "пояснение:")
                   (lower (format_final_answer lower raw))) = true
    /\ (text_empty (text_strip (match raw with Some r => r | None => [] end))
        || text_prefix (text_strip (match raw with Some r => r | None => [] end))
                       (format_final_answer lower raw)) = true.
Proof.
  intros lower raw. unfold format_final_answer.
  set (t := text_strip match raw with Some r => r | None => [] end).
  destruct t as [|c t'] eqn:Et; cbn [text_empty].
  - split; [reflexivity|]. split; [|reflexivity].
    now rewrite empty_answer_marked.
  - destruct (text_in (utf8 "пояснение:") (lower (c :: t'))) eqn:E.
    + split; [reflexivity|]. split; [now rewrite E, orb_true_r|].
      cbn [orb]. apply text_prefix_iff. exists []. now rewrite app_nil_r.
    + split; [reflexivity|]. split.
      * rewrite (text_in_app_l _ (c :: t') _
                   (text_in_app_l _ nl _
                      (text_in_app_l _ nl _ formal_explanation_marked))).
        reflexivity.
      * cbn [orb]. apply text_prefix_iff. now eexists.
Qed.

(* ================================================================== *)
(** * The rows the limit-taking tools select *)
(* ================================================================== *)

Lemma insert_by_rating_perm m l : Permutation (insert_by_rating m l) (m :: l).
Proof.
  induction l as [|x l IH]; cbn; [reflexivity|].
  destruct (Qltb (IMDB_Rating m) (IMDB_Rating x)); [|reflexivity].
  rewrite IH. apply perm_swap.
Qed.

Lemma order_by_rating_desc_perm l : Permutation (order_by_rating_desc l) l.
Proof.
  induction l as [|m l IH]; cbn; [reflexivity|].
  rewrite insert_by_rating_perm. now constructor.
Qed.

(** In a list in descending order every element of a front part is
    rated no lower than every element of the rest. *)
Lemma sorted_front_dominates k : forall l,
  sorted_desc (map IMDB_Rating l) ->
  Forall (fun x =>
            Forall (fun y => (IMDB_Rating y <= IMDB_Rating x)%Q) (skipn k l))
         (firstn k l).
Proof.
  unfold sorted_desc. induction k as [|k IH]; intros l Hs; cbn; [constructor|].
  destruct l as [|x l]; [constructor|].
  cbn in Hs. apply StronglySorted_inv in Hs as [Hs Hx].
  constructor; [|now apply IH].
  rewrite Forall_map in Hx. rewrite Forall_forall in *.
  intros y Hy. apply Hx.
  rewrite <- (firstn_skipn k l). apply in_or_app. now right.
Qed.

Lemma top_rated_limit n l :
  (0 <= n)%Z ->
  top_rated (sql_limit n (order_by_rating_desc l)) l (Z.to_nat n).
Proof.
  intros Hn. unfold sql_limit.
  destruct (Z.ltb_spec n 0) as [H|_]; [lia|].
  exists (skipn (Z.to_nat n) (order_by_rating_desc l)).
  split; [now rewrite firstn_skipn, order_by_rating_desc_perm|].
  split.
  - rewrite length_firstn.
    now rewrite (Permutation_length (order_by_rating_desc_perm l)).
  - split.
    + rewrite <- firstn_map. apply sorted_desc_firstn.
      apply order_by_rating_desc_sorted.
    + apply sorted_front_dominates, order_by_rating_desc_sorted.
Qed.

(** X23.  Top N: with a limit that [int] turns into a non-negative
    64-bit integer [n], the actor and genre tools on a readable table
    list the [n] best-rated rows among those their filter accepts (all
    of them when there are fewer), best first, and answer with their
    nothing-found sentence exactly when no row is accepted or [n] is
    0. *)
Theorem rated_tools_list_best_rated :
  forall (rows : list Movie) (arg : str) (limit : PyVal) (n : Z),
    py_int limit = Return n ->
    (0 <= n)%Z ->
    fits_int64 n = true ->
    (exists listed,
       top_rated listed
         (filter (stars_like (contains_pattern (_normalize arg))) rows)
         (Z.to_nat n)
       /\ kaggle_movies_with_actor (Table rows) arg limit
          = Return (rated_reply (RatedListing arg) arg listed))
    /\ (exists listed,
          top_rated listed
            (filter (genre_like (contains_pattern (_normalize arg))) rows)
            (Z.to_nat n)
          /\ kaggle_top_by_genre (Table rows) arg limit
             = Return (rated_reply (TopListing limit arg) arg listed)).
Proof.
  intros rows arg limit n Hint Hn Hf. split.
  - exists (sql_limit n (order_by_rating_desc
                           (filter (stars_like (contains_pattern (_normalize arg)))
                                   rows))).
    split; [now apply top_rated_limit|].
    unfold kaggle_movies_with_actor, fetch_limited.
    cbn [_get_connection fetch_table]. rewrite Hint, Hf.
    change (fun m : Movie =>
              like (contains_pattern (_normalize arg)) (sql_lower (coalesce (Star1 m)))
              || like (contains_pattern (_normalize arg)) (sql_lower (coalesce (Star2 m)))
              || like (contains_pattern (_normalize arg)) (sql_lower (coalesce (Star3 m)))
              || like (contains_pattern (_normalize arg)) (sql_lower (coalesce (Star4 m))))
      with (stars_like (contains_pattern (_normalize arg))).
    now destruct (sql_limit n _).
  - exists (sql_limit n (order_by_rating_desc
                           (filter (genre_like (contains_pattern (_normalize arg)))
                                   rows))).
    split; [now apply top_rated_limit|].
    unfold kaggle_top_by_genre, fetch_limited.
    cbn [_get_connection fetch_table]. rewrite Hint, Hf.
    change (fun m : Movie =>
              like (contains_pattern (_normalize arg)) (sql_lower (coalesce (Genre m))))
      with (genre_like (contains_pattern (_normalize arg))).
    now destruct (sql_limit n _).
Qed.

Lemma rated_tools_list_best_rated_witness :
  (exists listed,
     top_rated listed
       (filter (stars_like (contains_pattern (_normalize (s2l "DiCaprio"))))
               catalog)
       (Z.to_nat 2)
     /\ kaggle_movies_with_actor (Table catalog) (s2l "DiCaprio")
                                 (PyStr (s2l " 2 "))
        = Return (rated_reply (RatedListing (s2l "DiCaprio"))
                              (s2l "DiCaprio") listed))
  /\ (exists listed,
        top_rated listed
          (filter (genre_like (contains_pattern (_normalize (s2l "DiCaprio"))))
                  catalog)
          (Z.to_nat 2)
        /\ kaggle_top_by_genre (Table catalog) (s2l "DiCaprio")
                               (PyStr (s2l " 2 "))
           = Return (rated_reply (TopListing (PyStr (s2l " 2 "))
                                             (s2l "DiCaprio"))
                                 (s2l "DiCaprio") listed)).
Proof.
  apply (rated_tools_list_best_rated catalog (s2l "DiCaprio")
           (PyStr (s2l " 2 ")) 2%Z).
  - reflexivity.
  - lia.
  - reflexivity.
Defined.

Lemma sql_limit_incl n l x : In x (sql_limit n l) -> In x l.
Proof.
  unfold sql_limit. destruct (n <? 0)%Z; [trivial|].
  intros H. rewrite <- (firstn_skipn (Z.to_nat n) l).
  apply in_or_app. now left.
Qed.

Lemma excerpt_lines_all_present l :
  forallb (fun m => negb (null_overview m)) l = true ->
  excerpt_lines l = Return (map excerpt l).
Proof.
  induction l as [|m l IH]; [reflexivity|].
  cbn [forallb]. intros H. apply andb_true_iff in H as [Hm Hl].
  cbn [excerpt_lines map]. unfold null_overview in Hm. unfold excerpt at 1.
  destruct (Overview m) as [ov|]; [|discriminate].
  now rewrite (IH Hl).
Qed.

Lemma excerpt_lines_null l :
  existsb null_overview l = true -> excerpt_lines l = Raise TypeError.
Proof.
  induction l as [|m l IH]; [discriminate|].
  cbn [existsb excerpt_lines]. unfold null_overview at 1.
  destruct (Overview m) as [ov|]; [|reflexivity].
  cbn [orb]. intros H. now rewrite (IH H).
Qed.

Lemma overview_like_contains norm m :
  wildcard_free norm = true ->
  overview_like (contains_pattern norm) m
  = contains_nocase norm (coalesce (Overview m)).
Proof.
  intros Hw. unfold overview_like. rewrite (like_contains _ _ Hw).
  unfold contains_nocase. now rewrite sql_lower_idem.
Qed.

Lemma contains_nocase_empty norm :
  str_empty norm = false -> contains_nocase norm [] = false.
Proof. destruct norm; [discriminate | reflexivity]. Qed.

(** X24.  Keyword search with a keyword that, normalised, is not empty
    and has no [%] or [_], and a limit that [int] turns into a 64-bit
    integer: on a readable table the tool returns; every listed line
    belongs to a row of the table whose synopsis is not NULL and
    contains the keyword up to ASCII case, and shows the first 150
    characters of that synopsis. *)
Theorem keyword_search_excerpts :
  forall (rows : list Movie) (keyword : str) (limit : PyVal) (n : Z),
    py_int limit = Return n ->
    fits_int64 n = true ->
    wildcard_free (_normalize keyword) = true ->
    str_empty (_normalize keyword) = false ->
    exists selected,
      kaggle_search_by_keyword (Table rows) keyword limit
      = Return match selected with
               | [] => NothingFound keyword
               | _ :: _ => ExcerptListing keyword (map excerpt selected)
               end
      /\ Forall (fun m =>
                   In m rows
                   /\ null_overview m = false
                   /\ contains_nocase (_normalize keyword)
                                      (coalesce (Overview m)) = true
                   /\ length (snd (excerpt m)) <= 150)
                selected.
Proof.
  intros rows keyword limit n Hint Hf Hw Hne.
  set (pat := contains_pattern (_normalize keyword)).
  exists (sql_limit n (filter (overview_like pat) rows)).
  assert (Hsel : Forall (fun m =>
                   In m rows
                   /\ null_overview m = false
                   /\ contains_nocase (_normalize keyword)
                                      (coalesce (Overview m)) = true
                   /\ length (snd (excerpt m)) <= 150)
                   (sql_limit n (filter (overview_like pat) rows))).
  { apply Forall_forall. intros m Hm.
    apply sql_limit_incl, filter_In in Hm as [Hin Hlike].
    unfold pat in Hlike. rewrite (overview_like_contains _ m Hw) in Hlike.
    split; [exact Hin|]. split.
    - unfold null_overview. destruct (Overview m); [reflexivity|].
      cbn [coalesce] in Hlike.
      now rewrite (contains_nocase_empty _ Hne) in Hlike.
    - split; [exact Hlike|]. cbn [excerpt snd]. apply firstn_le_length. }
  split; [|exact Hsel].
  unfold kaggle_search_by_keyword, fetch_limited.
  cbn [_get_connection fetch_table]. rewrite Hint, Hf.
  change (fun m : Movie =>
            like (contains_pattern (_normalize keyword))
                 (sql_lower (coalesce (Overview m))))
    with (overview_like pat).
  destruct (sql_limit n (filter (overview_like pat) rows)) as [|m l] eqn:E;
    [reflexivity|].
  rewrite excerpt_lines_all_present; [reflexivity|].
  apply forallb_forall. intros x Hx. rewrite Forall_forall in Hsel.
  destruct (Hsel x Hx) as (_ & Hnull & _). now rewrite Hnull.
Qed.

Lemma keyword_search_excerpts_witness :
  exists selected,
    kaggle_search_by_keyword (Table catalog) (s2l " A ") (PyInt 2)
    = Return match selected with
             | [] => NothingFound (s2l " A ")
             | _ :: _ => ExcerptListing (s2l " A ") (map excerpt selected)
             end
    /\ Forall (fun m =>
                 In m catalog
                 /\ null_overview m = false
                 /\ contains_nocase (_normalize (s2l " A "))
                                    (coalesce (Overview m)) = true
                 /\ length (snd (excerpt m)) <= 150)
              selected.
Proof.
  apply (keyword_search_excerpts catalog (s2l " A ") (PyInt 2) 2%Z);
    reflexivity.
Defined.

Lemma overview_like_blank m : overview_like (contains_pattern []) m = true.
Proof. apply like_percent_percent. Qed.

Lemma filter_accept_all {A} (f : A -> bool) l :
  (forall x, f x = true) -> filter f l = l.
Proof.
  intros H. induction l as [|x l IH]; [reflexivity|].
  cbn. now rewrite H, IH.
Qed.

(** X25.  Keyword search with a keyword that is empty after
    normalisation selects the first rows of the table whatever their
    synopsis; when one of the selected rows has a NULL synopsis, the
    tool raises a [TypeError] instead of returning. *)
Theorem keyword_search_blank_keyword_null_synopsis :
  forall (rows : list Movie) (keyword : str) (limit : PyVal) (n : Z),
    py_int limit = Return n ->
    fits_int64 n = true ->
    _normalize keyword = [] ->
    existsb null_overview (sql_limit n rows) = true ->
    kaggle_search_by_keyword (Table rows) keyword limit = Raise TypeError.
Proof.
  intros rows keyword limit n Hint Hf Hq Hnull.
  unfold kaggle_search_by_keyword, fetch_limited.
  cbn [_get_connection fetch_table]. rewrite Hint, Hf, Hq.
  change (fun m : Movie =>
            like (contains_pattern []) (sql_lower (coalesce (Overview m))))
    with (overview_like (contains_pattern [])).
  rewrite (filter_accept_all _ rows overview_like_blank).
  destruct (sql_limit n rows) as [|m l] eqn:E; [discriminate Hnull|].
  now rewrite (excerpt_lines_null _ Hnull).
Qed.

Lemma keyword_search_blank_keyword_null_synopsis_witness :
  kaggle_search_by_keyword
    (Table [titanic;
            mkMovie (Some (s2l "Untitled")) None None 5.0%Q None None None
                    None None None])
    (s2l "  ") (PyStr (s2l "5"))
  = Raise TypeError.
Proof.
  apply (keyword_search_blank_keyword_null_synopsis
           [titanic;
            mkMovie (Some (s2l "Untitled")) None None 5.0%Q None None None
                    None None None]
           (s2l "  ") (PyStr (s2l "5")) 5%Z); reflexivity.
Defined.

(* ================================================================== *)
(** * A catalog file that is missing at first use *)
(* ================================================================== *)

(** X26.  When the catalog file is absent at the first call, the call
    returns nothing and marks the empty cache as loaded; from then on
    every call returns nothing, for every query and whatever the store
    holds by then. *)
Theorem missing_file_disables_matching_for_good :
  forall (q1 q2 : str) (st' : Store),
    _fuzzy_find_best_title FileAbsent q1 initial_state
    = (mkState [] true, Return None)
    /\ _fuzzy_find_best_title st' q2
         (fst (_fuzzy_find_best_title FileAbsent q1 initial_state))
       = (mkState [] true, Return None).
Proof.
  intros q1 q2 st'.
  assert (E : _fuzzy_find_best_title FileAbsent q1 initial_state
              = (mkState [] true, Return None)) by reflexivity.
  split; [exact E|]. now rewrite E.
Qed.
